(** * The auto-shorts notebooks, embedded in Rocq

    Two notebooks carry the behaviour of this repository:

    - the asyncio scratch notebook, with [to_async], [api_func],
      [call_api_func] and [main];
    - [notebooks/aggregated_stats.ipynb], which walks an S3 bucket, builds
      the [all_data] dictionary, fetches the [videos] relation, joins
      both and aggregates the durations by category.

    Python values, exceptions and the few library operations the cells call
    come first; each notebook has a module of its own. *)

From Stdlib Require Import Ascii QArith Qcanon.
From stdpp Require Import base strings list gmap numbers sorting.

Set Warnings "-register-all".

Open Scope Z_scope.

(** ** Python values *)

(** A [concurrent.futures.ThreadPoolExecutor] object that accepts work:
    the notebook creates its pool and never shuts it down.  A pool after
    [shutdown()], whose [submit] raises [RuntimeError], is not a value of
    this type. *)
Record executor : Type := { executor_id : nat; max_workers : nat }.

(** The values the cells handle: what [json.load] returns, what an SQL row
    holds, what a coroutine takes and resolves to.  A [float] is kept as
    the exact rational it stands for; IEEE rounding is outside this
    development, and so are the infinities and NaN.  Dictionaries are the
    ones [json.load] and keyword arguments build, so their keys are
    strings and every key occurs once.
    Event loops and executors are objects like any other. *)
Inductive pyval : Type :=
| PNone
| PBool (b : bool)
| PInt (z : Z)
| PFloat (q : Qc)
| PStr (s : string)
| PList (l : list pyval)
| PDict (d : list (string * pyval))
| PLoop (id : nat)
| PExecutor (e : executor).

(** Exceptions, by class.  [concurrent.futures] and [asyncio] each have
    their own [CancelledError], [TimeoutError] and [InvalidStateError] in
    the Python of the notebook's kernel (3.10).  [StopIteration] is the
    class itself; an instance of a class derived from it is a
    [StopIterationSubclass] and carries its [value] attribute, which is
    what an [await] that meets it returns.  [OtherError] stands for any
    other class derived from [Exception]: none of those listed, and not
    derived from [StopIteration]. *)
Inductive exn : Type :=
| KeyError (key : string)
| IndexError
| TypeError
| ValueError
| ZeroDivisionError
| OverflowError
| RuntimeError
| AttributeError
| FileNotFoundError (path : string)
| StopIteration
| StopIterationSubclass (cls : string) (value : pyval)
| FuturesCancelledError
| FuturesTimeoutError
| FuturesInvalidStateError
| CancelledError
| TimeoutError
| InvalidStateError
| OtherError (cls : string).

(** The outcome of a Python expression: a value, or a raised exception. *)
Inductive result (A : Type) : Type :=
| Ok (a : A)
| Raise (e : exn).
Arguments Ok {A} a.
Arguments Raise {A} e.

#[global] Instance result_ret : MRet result := fun _ a => Ok a.
#[global] Instance result_bind : MBind result := fun _ _ f m =>
  match m with
  | Ok a => f a
  | Raise e => Raise e
  end.

#[global] Instance result_fmap : FMap result := fun _ _ f m =>
  match m with
  | Ok a => Ok (f a)
  | Raise e => Raise e
  end.

(** ** Strings *)

(** [needle in hay]. *)
Fixpoint contains (needle hay : string) : bool :=
  String.prefix needle hay ||
  match hay with
  | EmptyString => false
  | String _ rest => contains needle rest
  end.

(** [s.split(sep)] for a one-character separator: never empty, one more
    part than there are separators. *)
Fixpoint split (sep : ascii) (s : string) : list string :=
  match s with
  | EmptyString => [EmptyString]
  | String c rest =>
      if Ascii.eqb c sep then EmptyString :: split sep rest
      else match split sep rest with
           | p :: ps => String c p :: ps
           | [] => [String c EmptyString]
           end
  end.

(** [l[:-1]]. *)
Definition drop_last {A} (l : list A) : list A := removelast l.

(** [sep.join(l)]. *)
Definition join (sep : string) (l : list string) : string := String.concat sep l.

(** [c in s] for a character. *)
Fixpoint has_char (c : ascii) (s : string) : bool :=
  match s with
  | EmptyString => false
  | String c' rest => Ascii.eqb c' c || has_char c rest
  end.

(** ** Subscripting and division *)

Fixpoint dict_lookup {V} (k : string) (d : list (string * V)) : option V :=
  match d with
  | [] => None
  | (k', v) :: rest => if String.eqb k k' then Some v else dict_lookup k rest
  end.

(** [l[i]] with Python's negative indices. *)
Definition seq_index {A} (l : list A) (i : Z) : result A :=
  let n := Z.of_nat (length l) in
  let j := if i <? 0 then i + n else i in
  if (j <? 0) || (n <=? j) then Raise IndexError
  else match l !! Z.to_nat j with
       | Some x => Ok x
       | None => Raise IndexError
       end.

Definition string_chars (s : string) : list string :=
  (fun c => String c EmptyString) <$> String.list_ascii_of_string s.

Definition hashable (v : pyval) : bool :=
  match v with
  | PList _ | PDict _ => false
  | _ => true
  end.

(** What [str()] of a key shows in a [KeyError]; only used as a label. *)
Definition key_label (v : pyval) : string :=
  match v with
  | PStr s => s
  | _ => "<key>"
  end.

(** [v[idx]]. *)
Definition getitem (v idx : pyval) : result pyval :=
  match v with
  | PDict d =>
      match idx with
      | PStr k => match dict_lookup k d with
                  | Some x => Ok x
                  | None => Raise (KeyError k)
                  end
      | _ => if hashable idx then Raise (KeyError (key_label idx)) else Raise TypeError
      end
  | PList l =>
      match idx with
      | PInt i => seq_index l i
      | PBool b => seq_index l (if b then 1 else 0)
      | _ => Raise TypeError
      end
  | PStr s =>
      match idx with
      | PInt i => PStr <$> seq_index (string_chars s) i
      | PBool b => PStr <$> seq_index (string_chars s) (if b then 1 else 0)
      | _ => Raise TypeError
      end
  | _ => Raise TypeError
  end.

(** The number a value stands for in arithmetic; [bool] is a subclass of
    [int]. *)
Definition numeric (v : pyval) : option Qc :=
  match v with
  | PBool b => Some (Q2Qc (inject_Z (if b then 1 else 0)))
  | PInt z => Some (Q2Qc (inject_Z z))
  | PFloat q => Some q
  | _ => None
  end.

Definition is_int (v : pyval) : bool :=
  match v with
  | PBool _ | PInt _ => true
  | _ => false
  end.

(** The numbers from [2^1024 - 2^970] on, in magnitude, round to no
    [float]: converting such an [int], or dividing two [int]s with such a
    quotient, raises [OverflowError]. *)
Definition float_limit : Qc := Qc_of_Z (2 ^ 1024 - 2 ^ 970).

Definition no_float (q : Qc) : bool :=
  bool_decide ((float_limit <= q)%Qc \/ (q <= - float_limit)%Qc).

(** [v / w], true division: the result is always a [float].  Two [int]s
    are divided as they are, and the quotient must have a [float]; an
    [int] next to a [float] is converted first, before the divisor is
    looked at.  The quotient is exact here: its rounding to a double is
    outside this development. *)
Definition truediv (v w : pyval) : result pyval :=
  match numeric v, numeric w with
  | Some a, Some b =>
      if is_int v && is_int w then
        if decide (b = 0%Qc) then Raise ZeroDivisionError
        else if no_float (a / b)%Qc then Raise OverflowError
        else Ok (PFloat (a / b)%Qc)
      else if (is_int v && no_float a) || (is_int w && no_float b) then Raise OverflowError
      else if decide (b = 0%Qc) then Raise ZeroDivisionError
      else Ok (PFloat (a / b)%Qc)
  | _, _ => Raise TypeError
  end.

(** ** Insertion-ordered dictionaries *)

(** [d[k] = v] on a [dict] with string keys: an existing key keeps its
    place and takes the new value, a new key goes last. *)
Fixpoint dict_set {V} (k : string) (v : V) (d : list (string * V)) : list (string * V) :=
  match d with
  | [] => [(k, v)]
  | (k', v') :: rest =>
      if String.eqb k k' then (k, v) :: rest else (k', v') :: dict_set k v rest
  end.

(** ** notebooks/aggregated_stats.ipynb *)

Module AggregatedStats.

(** A [pandas.DataFrame]: column labels and rectangular rows. *)
Record frame : Type := { columns : list string; rows : list (list pyval) }.

(** What the kernel holds between statements: the local files, the
    [all_data] global, and the SQL statements sent so far. *)
Record kernel : Type := {
  files : gmap string string;
  all_data : list (string * pyval);
  queries : list string
}.

(** A statement runs in the kernel and either yields a value or raises;
    what it changed before raising stays changed. *)
Definition cell (A : Type) : Type := kernel -> result A * kernel.

#[global] Instance cell_ret : MRet cell := fun _ a k => (Ok a, k).
#[global] Instance cell_bind : MBind cell := fun _ _ f m k =>
  match m k with
  | (Ok a, k') => f a k'
  | (Raise e, k') => (Raise e, k')
  end.

Definition lift {A} (r : result A) : cell A := fun k => (r, k).

Definition write_file (path body : string) : cell unit := fun k =>
  (Ok (), {| files := <[path := body]> (files k); all_data := all_data k; queries := queries k |}).

(** [open(path, 'r')] followed by reading the whole file. *)
Definition open_read (path : string) : cell string := fun k =>
  match files k !! path with
  | Some body => (Ok body, k)
  | None => (Raise (FileNotFoundError path), k)
  end.

Definition assign_all_data (d : list (string * pyval)) : cell unit := fun k =>
  (Ok (), {| files := files k; all_data := d; queries := queries k |}).

(** [all_data[key] = v]. *)
Definition store_all_data (key : string) (v : pyval) : cell unit := fun k =>
  (Ok (), {| files := files k; all_data := dict_set key v (all_data k); queries := queries k |}).

Definition log_query (q : string) : cell unit := fun k =>
  (Ok (), {| files := files k; all_data := all_data k; queries := queries k ++ [q] |}).

Fixpoint for_each {A} (xs : list A) (body : A -> cell unit) : cell unit :=
  match xs with
  | [] => mret ()
  | x :: rest => body x ;; for_each rest body
  end.

(** [vid_data['most_watched_moments'][-1]['time_end_ms']]. *)
Definition last_time_end_ms (vid_data : pyval) : result pyval :=
  moments ← getitem vid_data (PStr "most_watched_moments");
  moment ← getitem moments (PInt (-1));
  getitem moment (PStr "time_end_ms").

(** ['/'.join(key.split('/')[:-1])]. *)
Definition vid_path_of (key : string) : string :=
  join "/" (drop_last (split "/"%char key)).

Definition vid_len_of (vid_data : pyval) : result pyval :=
  t ← last_time_end_ms vid_data;
  truediv t (PInt 1000).

(** A document from which the duration can be read, in words rather than
    subscripts: [t] is the [time_end_ms] field of the last element of
    the [most_watched_moments] list. *)
Definition doc_last_time_end_ms (vid_data t : pyval) : Prop :=
  exists d l m,
    vid_data = PDict d /\
    dict_lookup "most_watched_moments" d = Some (PList l) /\
    list.last l = Some (PDict m) /\
    dict_lookup "time_end_ms" m = Some t.

(** The same as a test: the document is an object whose
    [most_watched_moments] is a non-empty list, the last element of which
    is an object with a [time_end_ms] key. *)
Definition has_last_time_end_ms (vid_data : pyval) : bool :=
  match vid_data with
  | PDict d =>
      match dict_lookup "most_watched_moments" d with
      | Some (PList l) =>
          match list.last l with
          | Some (PDict m) => bool_decide (is_Some (dict_lookup "time_end_ms" m))
          | _ => false
          end
      | _ => false
      end
  | _ => false
  end.

(** The world outside the kernel. *)
Record world : Type := {
  (** [bucket.objects.all()]: the keys it yields, and the error that ends
      the iteration early, if any. *)
  objects_all : list string * option exn;
  (** [bucket.download_file(key, _)]: the body of the object, or the error. *)
  download_file : string -> result string;
  (** [json.load] of a file with that content. *)
  json_load : string -> result pyval;
  (** [postgres_engine.connect()]: the error it raises, if any. *)
  connect : option exn;
  (** What the database answers to a statement. *)
  execute : string -> result frame
}.

(** The body of the [for obj in bucket.objects.all()] loop. *)
Definition loop_body (w : world) (key : string) : cell unit :=
  let target := "tmp_data.json" in
  if contains "video_data.json" key then
    body ← lift (download_file w key);
    write_file target body;;
    f ← open_read "tmp_data.json";
    vid_data ← lift (json_load w f);
    let vid_path := vid_path_of key in
    vid_len ← lift (vid_len_of vid_data);
    store_all_data vid_path vid_len
  else mret ().

Definition cell_2 (w : world) : cell unit :=
  assign_all_data [];;
  for_each (fst (objects_all w)) (loop_body w);;
  match snd (objects_all w) with
  | Some e => lift (Raise e)
  | None => mret ()
  end.

(** The kernel after [all_data = {}]. *)
Definition fresh (k : kernel) : kernel :=
  {| files := files k; all_data := []; queries := queries k |}.

(** The kernel after a turn of the loop that stored [len] for [key],
    having downloaded [body]. *)
Definition stored (key : string) (body : string) (len : pyval) (k : kernel) : kernel :=
  {| files := <["tmp_data.json" := body]> (files k);
     all_data := dict_set (vid_path_of key) len (all_data k);
     queries := queries k |}.

(** [pd.DataFrame(items, columns=cols)] for a list of pairs. *)
Definition DataFrame (items : list (string * pyval)) (cols : list string) : frame :=
  {| columns := cols; rows := (fun kv => [PStr kv.1; kv.2]) <$> items |}.

Definition cell_3 : cell frame := fun k =>
  (Ok (DataFrame (all_data k) ["s3_path"; "vid_len"]), k).

Fixpoint column_index (name : string) (cols : list string) : option nat :=
  match cols with
  | [] => None
  | c :: rest => if String.eqb name c then Some 0%nat else S <$> column_index name rest
  end.

Definition cell_at (r : list pyval) (i : nat) : pyval := default PNone (r !! i).

(** [f[names]]: the named columns, in the order asked for. *)
Definition select_columns (names : list string) (f : frame) : result frame :=
  idx ← mapM (fun n => match column_index n (columns f) with
                       | Some i => Ok i
                       | None => Raise (KeyError n)
                       end) names;
  Ok {| columns := names; rows := (fun r => cell_at r <$> idx) <$> rows f |}.

Definition sql : string := "SELECT * FROM autoshorts.videos".

Definition cell_7 (w : world) : cell frame :=
  match connect w with
  | Some e => lift (Raise e)
  | None =>
      log_query sql;;
      res ← lift (execute w sql);
      lift (select_columns ["s3_path"; "category_id"] res)
  end.

(** Equality of join keys: strings with strings, numbers with numbers,
    a missing value with a missing value, an object with itself. *)
Definition key_eq (a b : pyval) : bool :=
  match a, b with
  | PStr x, PStr y => String.eqb x y
  | PNone, PNone => true
  | PLoop x, PLoop y => (x =? y)%nat
  | PExecutor x, PExecutor y => (executor_id x =? executor_id y)%nat
  | _, _ => match numeric a, numeric b with
            | Some x, Some y => bool_decide (x = y)
            | _, _ => false
            end
  end.

(** The label of a column in the merged frame: a label that both sides
    have, the key apart, takes the side's suffix. *)
Definition merged_label (on suffix : string) (other : list string) (c : string) : string :=
  if String.eqb c on then c
  else if bool_decide (c ∈ other) then c +:+ suffix else c.

(** [left.merge(right, on=on)], an inner join that keeps the order of the
    left rows. *)
Definition merge (left right : frame) (on : string) : result frame :=
  match column_index on (columns left), column_index on (columns right) with
  | Some li, Some ri =>
      Ok {| columns :=
              ((merged_label on "_x" (columns right) <$> columns left) ++
               delete ri (merged_label on "_y" (columns left) <$> columns right))%list;
            rows :=
              l ← rows left;
              r ← rows right;
              if key_eq (cell_at l li) (cell_at r ri) then [(l ++ delete ri r)%list] else [] |}
  | _, _ => Raise (KeyError on)
  end.

Definition cell_8 (df df_vids : frame) : cell frame := lift (merge df df_vids "s3_path").

(** The cells in the order the notebook lists them, up to [final_df]. *)
Definition notebook (w : world) : cell frame :=
  cell_2 w;;
  df ← cell_3;
  df_vids ← cell_7 w;
  cell_8 df df_vids.

(** *** Cell 9: the statistics of the durations, by category *)





















(** *** A small bucket and database to run the cells on *)

Definition video_data (end_ms : Z) : pyval :=
  PDict [("video_id", PStr "-reCVT");
         ("most_watched_moments",
          PList [PDict [("time_start_ms", PInt 0); ("time_end_ms", PInt 1000)];
                 PDict [("time_start_ms", PInt 1000); ("time_end_ms", PInt end_ms)]])].

Definition example_keys : list string :=
  ["data/videos/17/UC1VU/a/video_data.json";
   "data/videos/17/UC1VU/a/thumbnail.jpg";
   "data/videos/24/UCxOz/b/video_data.json";
   "data/videos/17/UC1VU/a/video_data.json.bak"].

(** The body of an object stands for itself; it parses to a document
    whose last moment ends at a time that depends on the object. *)
Definition example_world : world := {|
  objects_all := (example_keys, None);
  download_file := fun key => Ok key;
  json_load := fun body =>
    if String.eqb body "data/videos/17/UC1VU/a/video_data.json" then Ok (video_data 507000)
    else if String.eqb body "data/videos/24/UCxOz/b/video_data.json" then Ok (video_data 1206000)
    else Ok (video_data 522000);
  connect := None;
  execute := fun _ =>
    Ok {| columns := ["video_id"; "s3_path"; "category_id"];
          rows := [[PStr "-reCVT"; PStr "data/videos/17/UC1VU/a"; PInt 17];
                   [PStr "nLeUvD"; PStr "data/videos/24/UCxOz/b"; PInt 24];
                   [PStr "BqDWZ_"; PStr "data/videos/26/UCqyZ/c"; PInt 26]] |}
|}.

Definition empty_kernel : kernel := {| files := ∅; all_data := []; queries := [] |}.

(** The same world, except that the download of the third object fails. *)
Definition failing_world : world := {|
  objects_all := objects_all example_world;
  download_file := fun key =>
    if String.eqb key "data/videos/24/UCxOz/b/video_data.json"
    then Raise (OtherError "ClientError") else Ok key;
  json_load := json_load example_world;
  connect := connect example_world;
  execute := execute example_world
|}.


(** *** The statistics, as they are defined *)






(** *** Vocabulary for further statements about the cells *)

(** The keys the loop processes. *)
Definition processed (keys : list string) : list string :=
  filter (fun key => contains "video_data.json" key = true) keys.

(** The distinct elements of a list, in the order of their first
    occurrence: the order in which a [dict] keeps keys assigned in the
    order of the list. *)
Definition first_occurrences (l : list string) : list string :=
  fold_left (fun acc p => if bool_decide (p ∈ acc) then acc else acc ++ [p]) l [].

(** [v] is the string [p]. *)
Definition is_path (p : string) (v : pyval) : bool :=
  match v with
  | PStr s => String.eqb p s
  | _ => false
  end.

(** The rows an inner join on [s3_path] gives, as a comprehension: the
    left items in their order, each with the rows of [res] that carry its
    path, in their order. *)
Definition joined_rows (items : list (string * pyval)) (res : frame) (i_path i_cat : nat)
  : list (list pyval) :=
  kv ← items;
  dbrow ← filter (fun dbrow => is_path kv.1 (cell_at dbrow i_path) = true) (rows res);
  [[PStr kv.1; kv.2; cell_at dbrow i_cat]].

End AggregatedStats.

(** ** The asyncio notebook *)

Module AsyncNotebook.

(** A blocking callable: positional and keyword arguments in, a value or
    an exception out. *)
Definition callable : Type := list pyval -> list (string * pyval) -> result pyval.

(** A coroutine, by what it asks of the event loop before it goes on.
    There is no constructor for [try]: the notebook has none. *)
Inductive coro : Type :=
| Return (v : pyval)
| Throw (e : exn)
| GetEventLoop (k : nat -> coro)
| RunInExecutor (loop : nat) (ex : option executor)
                (pfunc : unit -> result pyval) (k : pyval -> coro)
| Gather (aws : list coro) (k : list pyval -> coro)
| Print (v : pyval) (k : coro).

(** [x = await c; f x]. *)
Fixpoint bind (c : coro) (f : pyval -> coro) : coro :=
  match c with
  | Return v => f v
  | Throw e => Throw e
  | GetEventLoop k => GetEventLoop (fun l => bind (k l) f)
  | RunInExecutor l ex p k => RunInExecutor l ex p (fun v => bind (k v) f)
  | Gather aws k => Gather aws (fun vs => bind (k vs) f)
  | Print v k => Print v (bind k f)
  end.

(** [functools.partial] of [func] with [args] and [kwargs]. *)
Definition partial (func : callable) (args : list pyval) (kwargs : list (string * pyval))
  : unit -> result pyval :=
  fun _ => func args kwargs.

(** The keywords [run] takes for itself. *)
Definition reserved (k : string) : bool :=
  String.eqb k "loop" || String.eqb k "executor".

(** The body of the coroutine function [run] that [to_async(func)]
    returns, on its parameters: the positional [args], the keyword-only
    [loop] and [executor], and [kwargs].  [loop.run_in_executor] needs a
    loop object, and [None] or an executor object to submit to. *)
Definition run (func : callable) (args : list pyval) (loop executor : pyval)
    (kwargs : list (string * pyval)) : coro :=
  let with_loop (k : pyval -> coro) :=
    match loop with
    | PNone => GetEventLoop (fun l => k (PLoop l))
    | _ => k loop
    end in
  with_loop (fun loop =>
    let pfunc := partial func args kwargs in
    match loop with
    | PLoop l =>
        match executor with
        | PNone => RunInExecutor l None pfunc Return
        | PExecutor e => RunInExecutor l (Some e) pfunc Return
        | _ => Throw AttributeError
        end
    | _ => Throw AttributeError
    end).

(** A call of [to_async(func)] with positional arguments [args] and
    keyword arguments [kw]: the keywords [loop] and [executor] go to the
    parameters of [run] of that name, which default to [None]; the others
    make up [kwargs]. *)
Definition to_async (func : callable) (args : list pyval) (kw : list (string * pyval))
  : coro :=
  run func args
    (default PNone (dict_lookup "loop" kw))
    (default PNone (dict_lookup "executor" kw))
    (filter (fun p => reserved p.1 = false) kw).

Definition _executor : executor := {| executor_id := 1; max_workers := 1 |}.

(** [time.sleep]: blocks the calling thread, returns [None]. *)
Definition sleep (seconds : Z) : result unit := Ok ().

(** The function under [@to_async]; it takes no argument. *)
Definition api_func_def : callable := fun args kwargs =>
  match args, kwargs with
  | [], [] => sleep 3;; Ok (PInt 1)
  | _, _ => Raise TypeError
  end.

Definition api_func := to_async api_func_def.

Definition call_api_func : coro :=
  bind (api_func [] []) (fun result => Return result).

Definition main : coro :=
  Gather [call_api_func; call_api_func; call_api_func; call_api_func]
    (fun a => Print (PList a) (Return PNone)).

(** A callable that tells whether it was given the keyword [name]. *)
Definition has_keyword (name : string) : callable := fun _ kwargs =>
  match dict_lookup name kwargs with
  | Some _ => Ok (PInt 1)
  | None => Ok (PInt 0)
  end.

(** [call_api_func] and [main] for any wrapped functions in place of
    [api_func]: what tells the calls of a [gather] apart. *)
Definition call_with (func : callable) : coro :=
  bind (to_async func [] []) (fun result => Return result).

Definition main_with (funcs : list callable) : coro :=
  Gather (call_with <$> funcs) (fun a => Print (PList a) (Return PNone)).

(** *** The event loop and the worker pools *)

(** Where [run_in_executor] sends the work: the pool given, or the
    loop's default pool for [None]. *)
Inductive pool : Type :=
| DefaultExecutor
| UserExecutor (e : executor).

Definition pool_of (ex : option executor) : pool :=
  match ex with
  | None => DefaultExecutor
  | Some e => UserExecutor e
  end.

Record job : Type := { job_future : nat; job_pool : pool; job_func : unit -> result pyval }.

(** A task is suspended on an executor future, suspended on the tasks of
    a [gather], or finished. *)
Inductive task : Type :=
| WaitFuture (fut : nat) (k : pyval -> coro)
| WaitGather (children : list task) (k : list pyval -> coro)
| Done (r : result pyval).

Record event_loop : Type := {
  loop_id : nat;
  next_future : nat;
  work : list job;
  stdout : list pyval;
  detached : list task
}.

Definition new_event_loop (id : nat) : event_loop :=
  {| loop_id := id; next_future := 0; work := []; stdout := []; detached := [] |}.

Definition submit (ex : option executor) (p : unit -> result pyval) (st : event_loop) : event_loop :=
  {| loop_id := loop_id st;
     next_future := S (next_future st);
     work := work st ++ [{| job_future := next_future st; job_pool := pool_of ex; job_func := p |}];
     stdout := stdout st;
     detached := detached st |}.

Definition print (v : pyval) (st : event_loop) : event_loop :=
  {| loop_id := loop_id st; next_future := next_future st; work := work st;
     stdout := stdout st ++ [v]; detached := detached st |}.

Definition is_done (t : task) : bool :=
  match t with Done _ => true | _ => false end.

(** The children of a failed [gather] are not cancelled. *)
Definition detach (ts : list task) (st : event_loop) : event_loop :=
  {| loop_id := loop_id st; next_future := next_future st; work := work st;
     stdout := stdout st;
     detached := detached st ++ filter (fun t => is_done t = false) ts |}.

(** [gather] without [return_exceptions]: the first exception among the
    children is the outcome as soon as it is there; otherwise the values,
    in the order of the children, once all are there. *)
Inductive gathered : Type :=
| AllDone (vs : list pyval)
| Failed (e : exn)
| Waiting.

Fixpoint gather_status (ts : list task) : gathered :=
  match ts with
  | [] => AllDone []
  | Done (Raise e) :: _ => Failed e
  | Done (Ok v) :: rest =>
      match gather_status rest with
      | AllDone vs => AllDone (v :: vs)
      | other => other
      end
  | _ :: rest =>
      match gather_status rest with
      | Failed e => Failed e
      | _ => Waiting
      end
  end.

(** Run a coroutine until it suspends or finishes.  The tasks of a
    [gather] are started in the order given.  A future of another loop
    cannot be awaited: the task gets [RuntimeError], the job having been
    submitted all the same. *)
Fixpoint start (c : coro) (st : event_loop) {struct c} : task * event_loop :=
  match c with
  | Return v => (Done (Ok v), st)
  | Throw e => (Done (Raise e), st)
  | GetEventLoop k => start (k (loop_id st)) st
  | Print v k => start k (print v st)
  | RunInExecutor l ex p k =>
      let fut := next_future st in
      let st' := submit ex p st in
      if (l =? loop_id st)%nat then (WaitFuture fut k, st')
      else (Done (Raise RuntimeError), st')
  | Gather aws k =>
      let '(ts, st') :=
        (fix start_all (cs : list coro) (st : event_loop) : list task * event_loop :=
           match cs with
           | [] => ([], st)
           | c :: cs' =>
               let '(t, st1) := start c st in
               let '(ts, st2) := start_all cs' st1 in
               (t :: ts, st2)
           end) aws st in
      match gather_status ts with
      | AllDone vs => start (k vs) st'
      | Failed e => (Done (Raise e), detach ts st')
      | Waiting => (WaitGather ts k, st')
      end
  end.

Fixpoint start_all (cs : list coro) (st : event_loop) : list task * event_loop :=
  match cs with
  | [] => ([], st)
  | c :: cs' =>
      let '(t, st1) := start c st in
      let '(ts, st2) := start_all cs' st1 in
      (t :: ts, st2)
  end.

(** The future [fut] is resolved with [r]: the task suspended on it goes
    on, and a [gather] whose tasks are all finished resumes its awaiter. *)
Fixpoint deliver (fut : nat) (r : result pyval) (t : task) (st : event_loop)
    {struct t} : task * event_loop :=
  match t with
  | Done x => (Done x, st)
  | WaitFuture f k =>
      if (f =? fut)%nat then
        match r with
        | Ok v => start (k v) st
        | Raise e => (Done (Raise e), st)
        end
      else (WaitFuture f k, st)
  | WaitGather ts k =>
      let '(ts', st') :=
        (fix deliver_all (ts : list task) (st : event_loop) : list task * event_loop :=
           match ts with
           | [] => ([], st)
           | t :: rest =>
               let '(t', st1) := deliver fut r t st in
               let '(rest', st2) := deliver_all rest st1 in
               (t' :: rest', st2)
           end) ts st in
      match gather_status ts' with
      | AllDone vs => start (k vs) st'
      | Failed e => (Done (Raise e), detach ts' st')
      | Waiting => (WaitGather ts' k, st')
      end
  end.

Definition deliver_all (fut : nat) (r : result pyval)
    : list task -> event_loop -> list task * event_loop :=
  fix deliver_all (ts : list task) (st : event_loop) : list task * event_loop :=
    match ts with
    | [] => ([], st)
    | t :: rest =>
        let '(t', st1) := deliver fut r t st in
        let '(rest', st2) := deliver_all rest st1 in
        (t' :: rest', st2)
    end.

Fixpoint take_job (fut : nat) (q : list job) : option (job * list job) :=
  match q with
  | [] => None
  | j :: rest =>
      if (job_future j =? fut)%nat then Some (j, rest)
      else '(j', rest') ← take_job fut rest; Some (j', j :: rest')
  end.

(** [asyncio.futures._convert_future_exc]: the exception classes of
    [concurrent.futures] are replaced by those of [asyncio]. *)
Definition convert_future_exc (e : exn) : exn :=
  match e with
  | FuturesCancelledError => CancelledError
  | FuturesTimeoutError => TimeoutError
  | FuturesInvalidStateError => InvalidStateError
  | _ => e
  end.

(** What an [await] on the future of the loop gets when the call is over
    ([asyncio.futures._copy_future_state], then the iterator of the
    future).  [Future.set_exception] refuses an exception whose class is
    [StopIteration] itself, and the future then stays pending: [None].
    It takes an instance of a class derived from [StopIteration]; raised
    by the iterator of the future, that instance ends the iteration, so
    the [await] returns its [value] and nothing is raised. *)
Definition future_outcome (r : result pyval) : option (result pyval) :=
  match r with
  | Ok v => Some (Ok v)
  | Raise StopIteration => None
  | Raise (StopIterationSubclass _ value) => Some (Ok value)
  | Raise e => Some (Raise (convert_future_exc e))
  end.

(** A worker finishes the job behind [fut]: the call is made, its outcome
    resolves the future.  A future with no job left is ignored. *)
Definition complete (fut : nat) (root : task) (st : event_loop) : task * event_loop :=
  match take_job fut (work st) with
  | None => (root, st)
  | Some (j, q) =>
      match future_outcome (job_func j ()) with
      | None =>
          (root, {| loop_id := loop_id st; next_future := next_future st; work := q;
                    stdout := stdout st; detached := detached st |})
      | Some r =>
          let st0 := {| loop_id := loop_id st; next_future := next_future st; work := q;
                        stdout := stdout st; detached := [] |} in
          let '(root', st1) := deliver fut r root st0 in
          let '(ds, st2) := deliver_all fut r (detached st) st1 in
          (root', {| loop_id := loop_id st2; next_future := next_future st2;
                     work := work st2; stdout := stdout st2;
                     detached := filter (fun t => is_done t = false) ds ++ detached st2 |})
      end
  end.

(** The exceptions a future hands on as they are: every class but
    [StopIteration], the classes derived from it, and the three classes of
    [concurrent.futures] that [asyncio] replaces by its own. *)
Definition passes_through (e : exn) : bool :=
  match e with
  | StopIteration | StopIterationSubclass _ _ | FuturesCancelledError
  | FuturesTimeoutError | FuturesInvalidStateError => false
  | _ => true
  end.


(** The loop runs the root task; [order] lists the futures in the order
    the workers finish them.  [None]: the root is still suspended when
    the list is used up. *)
Fixpoint run_tasks (order : list nat) (root : task) (st : event_loop)
    : option (result pyval) * event_loop :=
  match root with
  | Done r => (Some r, st)
  | _ =>
      match order with
      | [] => (None, st)
      | fut :: rest =>
          let '(root', st') := complete fut root st in
          run_tasks rest root' st'
      end
  end.

Definition run_until_complete (c : coro) (order : list nat) (st : event_loop)
  : option (result pyval) * event_loop :=
  let '(t, st') := start c st in
  run_tasks order t st'.

(** *** How many jobs a pool runs at once *)

(** [ThreadPoolExecutor()] without [max_workers], which is what the loop
    builds for [run_in_executor(None, _)]: [min(32, (os.cpu_count() or 1) + 4)]. *)
Definition default_max_workers (cpu_count : option nat) : nat :=
  Nat.min 32 (match cpu_count with Some (S n) => S n | _ => 1 end + 4).

Definition workers (cpu_count : option nat) (p : pool) : nat :=
  match p with
  | DefaultExecutor => default_max_workers cpu_count
  | UserExecutor e => max_workers e
  end.

#[global] Instance executor_eq_dec : EqDecision executor.
Proof. solve_decision. Defined.
#[global] Instance pool_eq_dec : EqDecision pool.
Proof. solve_decision. Defined.

(** The jobs a worker has picked up: each pool takes its jobs in the
    order of submission, as many at a time as it has workers. *)
Fixpoint in_flight_from (cpu_count : option nat) (earlier q : list job) : list job :=
  match q with
  | [] => []
  | j :: rest =>
      let ahead := length (filter (fun j' => job_pool j' = job_pool j) earlier) in
      (if (ahead <? workers cpu_count (job_pool j))%nat then [j] else []) ++
      in_flight_from cpu_count (earlier ++ [j]) rest
  end.

Definition in_flight (cpu_count : option nat) (q : list job) : list job :=
  in_flight_from cpu_count [] q.

(** A completion order the pools can produce: every future completed
    belongs to a job some worker is running. *)
Fixpoint admissible (cpu_count : option nat) (q : list job) (order : list nat) : bool :=
  match order with
  | [] => true
  | fut :: rest =>
      bool_decide (fut ∈ job_future <$> in_flight cpu_count q) &&
      match take_job fut q with
      | Some (_, q') => admissible cpu_count q' rest
      | None => false
      end
  end.

(** *** Vocabulary for the statements about [gather] *)

(** A loop on which nothing is detached and whose jobs all have futures
    handed out before. *)
Definition idle_tasks (st : event_loop) : Prop :=
  detached st = [] /\ forall j, j ∈ work st -> (job_future j < next_future st)%nat.

(** The state of the calls: [None] while the worker has not finished,
    the value afterwards.  The call at position [i] waits on future
    [b + i]. *)
Fixpoint slot_tasks (b : nat) (filled : list (option pyval)) : list task :=
  match filled with
  | [] => []
  | Some v :: rest => Done (Ok v) :: slot_tasks (S b) rest
  | None :: rest => WaitFuture b Return :: slot_tasks (S b) rest
  end.

(** The jobs of the calls that have not finished. *)
Fixpoint slot_jobs (b : nat) (funcs : list callable) (filled : list (option pyval))
    : list job :=
  match funcs, filled with
  | f :: fs, o :: rest =>
      match o with
      | None => [{| job_future := b; job_pool := DefaultExecutor;
                    job_func := partial f [] [] |}]
      | Some _ => []
      end ++ slot_jobs (S b) fs rest
  | _, _ => []
  end.

(** The call waiting on [fut] gets its value. *)
Fixpoint fill (b fut : nat) (v : pyval) (filled : list (option pyval))
    : list (option pyval) :=
  match filled with
  | [] => []
  | Some x :: rest => Some x :: fill (S b) fut v rest
  | None :: rest => (if (b =? fut)%nat then Some v else None) :: fill (S b) fut v rest
  end.

(** The values of the calls, once all are there. *)
Fixpoint all_values (filled : list (option pyval)) : option (list pyval) :=
  match filled with
  | [] => Some []
  | Some v :: rest => (v ::.) <$> all_values rest
  | None :: _ => None
  end.

(** The values found so far are those the calls return. *)
Definition agrees (filled : list (option pyval)) (vs : list pyval) : Prop :=
  Forall2 (fun o v => o = None \/ o = Some v) filled vs.

(** The rest of [main] after the [gather]. *)
Definition print_list (a : list pyval) : coro := Print (PList a) (Return PNone).

(** *** Vocabulary for the keywords [loop] and [executor] *)

(** The values of [loop] with which [run] works on the loop [st]: [None],
    for which it asks for the running loop, or that loop itself. *)
Definition own_loop (st : event_loop) (v : pyval) : bool :=
  match v with
  | PNone => true
  | PLoop l => (l =? loop_id st)%nat
  | _ => false
  end.

(** A value that has a method [run_in_executor]. *)
Definition is_loop (v : pyval) : bool :=
  match v with
  | PLoop _ => true
  | _ => false
  end.

(** What [run_in_executor] makes of its first argument: [None] stands for
    the default pool, an executor for itself; nothing else can be
    submitted to. *)
Definition as_executor (v : pyval) : option (option executor) :=
  match v with
  | PNone => Some None
  | PExecutor e => Some (Some e)
  | _ => None
  end.

(** The keyword arguments that reach [kwargs]. *)
Definition forwarded (kw : list (string * pyval)) : list (string * pyval) :=
  filter (fun p => reserved p.1 = false) kw.

End AsyncNotebook.

(** * Facts *)

Import AggregatedStats AsyncNotebook.

(** Membership in a list that is written out. *)
Ltac in_list := repeat first [apply list_elem_of_here | apply list_elem_of_further].

(** ** Strings *)

Lemma append_nil_l (s : string) : "" +:+ s = s.
Proof. reflexivity. Qed.

Lemma append_cons (c : ascii) (a b : string) : String c a +:+ b = String c (a +:+ b).
Proof. reflexivity. Qed.

Lemma prefix_app (n h : string) :
  String.prefix n h = true <-> exists b, h = n +:+ b.
Proof.
  revert h; induction n as [|c n IH]; intros h.
  - split; [intros _; exists h; reflexivity | intros _; destruct h; reflexivity].
  - destruct h as [|c' h]; cbn [String.prefix].
    + split; [done | intros [b Hb]; rewrite append_cons in Hb; discriminate].
    + destruct (Ascii.ascii_dec c c') as [->|Hne].
      * rewrite IH. split; intros [b Hb]; exists b; rewrite append_cons in *; congruence.
      * split; [done | intros [b Hb]; rewrite append_cons in Hb; congruence].
Qed.

(** [needle in hay] holds exactly when [hay] has [needle] as a substring. *)
Lemma contains_spec (n h : string) :
  contains n h = true <-> exists a b, h = a +:+ n +:+ b.
Proof.
  induction h as [|c h IH]; cbn [contains].
  - rewrite orb_false_r, prefix_app. split.
    + intros [b Hb]. by exists "", b.
    + intros [a [b Hab]]. destruct a; [by exists b | rewrite append_cons in Hab; discriminate].
  - rewrite orb_true_iff, prefix_app, IH. split.
    + intros [[b Hb] | [a [b Hab]]]; [by exists "", b |].
      exists (String c a), b. rewrite append_cons. congruence.
    + intros [a [b Hab]]. destruct a as [|c' a].
      * left. by exists b.
      * right. exists a, b. rewrite append_cons in Hab. congruence.
Qed.

Lemma split_not_nil (sep : ascii) (s : string) : split sep s <> [].
Proof.
  induction s as [|c s IH]; simpl; [done|].
  destruct (Ascii.eqb c sep); [done|]. by destruct (split sep s).
Qed.

(** Joining what [split] gave restores the string. *)
Lemma join_split (sep : ascii) (s : string) :
  join (String sep "") (split sep s) = s.
Proof.
  unfold join. induction s as [|c s IH]; simpl; [done|].
  destruct (Ascii.eqb c sep) eqn:E.
  - apply Ascii.eqb_eq in E as ->.
    pose proof (split_not_nil sep s).
    destruct (split sep s) as [|p ps]; [done|].
    cbn [String.concat] in *. by rewrite append_nil_l, append_cons, append_nil_l, IH.
  - pose proof (split_not_nil sep s).
    destruct (split sep s) as [|p ps]; [done|].
    destruct ps; cbn [String.concat] in *; rewrite <- IH; reflexivity.
Qed.

Lemma split_app_sep (sep : ascii) (a b : string) :
  split sep (a +:+ String sep b) = (split sep a ++ split sep b).
Proof.
  induction a as [|c a IH]; rewrite ?append_nil_l, ?append_cons; simpl.
  - by rewrite Ascii.eqb_refl.
  - destruct (Ascii.eqb c sep); rewrite IH; [done|].
    pose proof (split_not_nil sep a). by destruct (split sep a).
Qed.

Lemma split_no_sep (sep : ascii) (s : string) :
  has_char sep s = false -> split sep s = [s].
Proof.
  induction s as [|c s IH]; simpl; [done|].
  intros [-> Hs]%orb_false_iff. by rewrite IH.
Qed.

Lemma drop_last_snoc {A} (l : list A) (x : A) : drop_last (l ++ [x]) = l.
Proof. unfold drop_last. apply removelast_last. Qed.

(** The logical video path is the key without its last component. *)
Lemma vid_path_of_dir (dir base : string) :
  has_char "/"%char base = false ->
  AggregatedStats.vid_path_of (dir +:+ "/" +:+ base) = dir.
Proof.
  intros Hb. unfold AggregatedStats.vid_path_of.
  change ("/" +:+ base) with (String "/" base).
  rewrite split_app_sep, (split_no_sep _ base Hb), drop_last_snoc.
  apply join_split.
Qed.

Lemma vid_path_of_flat (key : string) :
  has_char "/"%char key = false -> AggregatedStats.vid_path_of key = "".
Proof.
  intros Hk. unfold AggregatedStats.vid_path_of. by rewrite (split_no_sep _ key Hk).
Qed.

(** ** Dictionaries *)

Lemma dict_lookup_set_eq {V} (k : string) (v : V) d :
  dict_lookup k (dict_set k v d) = Some v.
Proof.
  induction d as [|[k' v'] d IH]; simpl.
  - by rewrite String.eqb_refl.
  - destruct (String.eqb k k') eqn:E; simpl; [by rewrite String.eqb_refl | by rewrite E].
Qed.

Lemma dict_lookup_set_ne {V} (k k' : string) (v : V) d :
  k <> k' -> dict_lookup k' (dict_set k v d) = dict_lookup k' d.
Proof.
  intros Hne. induction d as [|[k1 v1] d IH]; simpl.
  - destruct (String.eqb_spec k' k); congruence.
  - destruct (String.eqb_spec k k1) as [->|]; simpl.
    + destruct (String.eqb_spec k' k1); congruence.
    + by rewrite IH.
Qed.

Lemma dict_set_keys {V} (k k' : string) (v : V) d :
  k' ∈ (dict_set k v d).*1 <-> k' = k \/ k' ∈ d.*1.
Proof.
  induction d as [|[k1 v1] d IH]; simpl.
  - rewrite list_elem_of_singleton, elem_of_nil. tauto.
  - destruct (String.eqb_spec k k1) as [->|]; simpl.
    + rewrite !elem_of_cons. tauto.
    + rewrite !elem_of_cons, IH. tauto.
Qed.

(** Assignment keeps the keys of a dictionary pairwise distinct. *)
Lemma dict_set_NoDup {V} (k : string) (v : V) d :
  NoDup d.*1 -> NoDup (dict_set k v d).*1.
Proof.
  induction d as [|[k1 v1] d IH]; simpl; intros Hd.
  - apply NoDup_singleton.
  - apply list.NoDup_cons in Hd as [Hk1 Hd].
    destruct (String.eqb_spec k k1) as [->|]; simpl.
    + by apply list.NoDup_cons.
    + apply list.NoDup_cons. split; [|by apply IH].
      rewrite dict_set_keys. intros [?|?]; [congruence | done].
Qed.

(** ** Subscripting *)

Lemma seq_index_last {A} (l : list A) (x : A) :
  seq_index l (-1) = Ok x <-> list.last l = Some x.
Proof.
  unfold seq_index. rewrite last_lookup.
  destruct l as [|a l]; [done|].
  change (-1 <? 0) with true. cbv iota.
  assert (Hn : Z.to_nat (-1 + Z.of_nat (length (a :: l))) = pred (length (a :: l)))
    by (simpl length; lia).
  rewrite Hn.
  replace ((-1 + Z.of_nat (length (a :: l)) <? 0) ||
           (Z.of_nat (length (a :: l)) <=? -1 + Z.of_nat (length (a :: l)))) with false
    by (simpl length; symmetry; apply orb_false_iff; split;
        [apply Z.ltb_ge | apply Z.leb_gt]; lia).
  destruct ((a :: l) !! pred (length (a :: l))); split; congruence.
Qed.

Lemma seq_index_last_nil {A} : seq_index (@nil A) (-1) = Raise IndexError.
Proof. reflexivity. Qed.

Lemma has_last_time_end_ms_spec (v : pyval) :
  has_last_time_end_ms v = true <-> exists t, doc_last_time_end_ms v t.
Proof.
  unfold has_last_time_end_ms, doc_last_time_end_ms. split.
  - destruct v as [| | | | |?|d| |]; try done.
    destruct (dict_lookup "most_watched_moments" d) as [[| | | | |l|?| |]|] eqn:Hd; try done.
    destruct (list.last l) as [[| | | | |?|m| |]|] eqn:Hl; try done.
    intros [t Ht]%bool_decide_eq_true. exists t, d, l, m. done.
  - intros (t & d & l & m & -> & -> & -> & Ht). apply bool_decide_eq_true. eauto.
Qed.

Lemma last_time_end_ms_spec (v t : pyval) :
  AggregatedStats.last_time_end_ms v = Ok t <-> doc_last_time_end_ms v t.
Proof.
  unfold AggregatedStats.last_time_end_ms, doc_last_time_end_ms. split.
  - destruct v as [| | | | |?|d| |]; try done. simpl.
    destruct (dict_lookup "most_watched_moments" d) as [moments|] eqn:Hd; [|done]. simpl.
    destruct moments as [| | | |s|l|?| |]; try done.
    + simpl. destruct (seq_index (string_chars s) (-1)); done.
    + simpl. destruct (seq_index l (-1)) as [moment|] eqn:Hl; [|done].
      apply seq_index_last in Hl. simpl.
      destruct moment as [| | | | |?|m| |]; try done. simpl.
      destruct (dict_lookup "time_end_ms" m) as [x|] eqn:Hm; [|done].
      intros [= <-]. exists d, l, m. done.
  - intros (d & l & m & -> & Hd & Hl & Hm). simpl. rewrite Hd. simpl.
    apply seq_index_last in Hl. rewrite Hl. simpl. by rewrite Hm.
Qed.

(** ** The cells of aggregated_stats *)

Lemma cell_bind_ok {A B} (m : cell A) (f : A -> cell B) k b k' :
  (m ≫= f) k = (Ok b, k') ->
  exists a k1, m k = (Ok a, k1) /\ f a k1 = (Ok b, k').
Proof.
  unfold mbind, cell_bind. destruct (m k) as [[a|e] k1]; [eauto | done].
Qed.

Lemma cell_bind_ok_l {A B} (m : cell A) (f : A -> cell B) k a k1 :
  m k = (Ok a, k1) -> (m ≫= f) k = f a k1.
Proof. unfold mbind, cell_bind. by intros ->. Qed.


Lemma for_each_app {A} (xs ys : list A) (body : A -> cell unit) k :
  for_each (xs ++ ys) body k =
  match for_each xs body k with
  | (Ok _, k1) => for_each ys body k1
  | (Raise e, k1) => (Raise e, k1)
  end.
Proof.
  revert k; induction xs as [|x xs IH]; intros k; simpl; [done|].
  unfold mbind, cell_bind. destruct (body x k) as [[[]|e] k1]; [apply IH | done].
Qed.

(** One turn of the loop on a key that has ['video_data.json'] in it. *)
Lemma loop_body_ok w key k k' :
  contains "video_data.json" key = true ->
  loop_body w key k = (Ok (), k') ->
  exists body vid_data len,
    download_file w key = Ok body /\
    json_load w body = Ok vid_data /\
    vid_len_of vid_data = Ok len /\
    k' = stored key body len k.
Proof.
  unfold loop_body. intros ->.
  unfold mbind, cell_bind, lift, write_file, open_read, store_all_data; simpl.
  destruct (download_file w key) as [body|] eqn:Hd; [|done].
  rewrite lookup_insert_eq.
  destruct (json_load w body) as [vid_data|] eqn:Hj; [|done].
  destruct (vid_len_of vid_data) as [len|] eqn:Hl; [|done].
  intros [= <-]. by exists body, vid_data, len.
Qed.

Lemma loop_body_run w key k body vid_data len :
  contains "video_data.json" key = true ->
  download_file w key = Ok body ->
  json_load w body = Ok vid_data ->
  vid_len_of vid_data = Ok len ->
  loop_body w key k = (Ok (), stored key body len k).
Proof.
  unfold loop_body. intros -> Hd Hj Hl.
  unfold mbind, cell_bind, lift, write_file, open_read, store_all_data; simpl.
  by rewrite Hd, lookup_insert_eq, Hj, Hl.
Qed.

Lemma loop_body_skip w key k :
  contains "video_data.json" key = false -> loop_body w key k = (Ok (), k).
Proof. unfold loop_body. by intros ->. Qed.

Lemma no_float_1000 : no_float (Q2Qc (inject_Z 1000)) = false.
Proof. vm_compute. reflexivity. Qed.

(** Division by the [int] 1000: a number over 1000, unless it is an [int]
    too large for the quotient to have a float. *)
Lemma truediv_1000 (t : pyval) :
  truediv t (PInt 1000) =
  match numeric t with
  | Some q =>
      if is_int t && no_float (q / Q2Qc (inject_Z 1000))%Qc then Raise OverflowError
      else Ok (PFloat (q / Q2Qc (inject_Z 1000))%Qc)
  | None => Raise TypeError
  end.
Proof.
  unfold truediv. destruct (numeric t) as [q|]; [|done].
  change (numeric (PInt 1000)) with (Some (Q2Qc (inject_Z 1000))).
  change (is_int (PInt 1000)) with true. cbv iota beta.
  rewrite no_float_1000, !andb_true_r, andb_false_r, orb_false_r.
  assert (Hne : Q2Qc (inject_Z 1000) <> 0%Qc) by discriminate.
  destruct (is_int t); cbn [andb]; by rewrite decide_False by done.
Qed.

(** The duration is the last [time_end_ms], over 1000, as a float. *)
Lemma vid_len_of_spec vid_data len :
  vid_len_of vid_data = Ok len <->
  exists t q, doc_last_time_end_ms vid_data t /\ numeric t = Some q /\
              is_int t && no_float (q / Q2Qc (inject_Z 1000))%Qc = false /\
              len = PFloat (q / Q2Qc (inject_Z 1000))%Qc.
Proof.
  unfold vid_len_of. split.
  - destruct (last_time_end_ms vid_data) as [t|] eqn:Ht; [|done].
    cbn [mbind result_bind]. apply last_time_end_ms_spec in Ht. rewrite truediv_1000.
    destruct (numeric t) as [q|] eqn:Hq; [|done].
    destruct (is_int t && no_float (q / Q2Qc (inject_Z 1000))%Qc) eqn:Hfits; [done|].
    intros [= <-]. exists t, q. by repeat split.
  - intros (t & q & Ht & Hq & Hfits & ->).
    apply (proj2 (last_time_end_ms_spec vid_data t)) in Ht. rewrite Ht.
    cbn [mbind result_bind]. by rewrite truediv_1000, Hq, Hfits.
Qed.

Lemma cell_2_ok w k0 k :
  cell_2 w k0 = (Ok (), k) ->
  for_each (objects_all w).1 (loop_body w) (fresh k0) = (Ok (), k).
Proof.
  unfold cell_2. intros H.
  apply cell_bind_ok in H as ([] & k1 & [= <-] & H).
  apply cell_bind_ok in H as ([] & k2 & H1 & H).
  destruct (objects_all w).2; [done|]. by inversion H; subst.
Qed.

(** A property that every turn of a loop keeps holds when the loop ends. *)
Lemma for_each_invariant {A} (P : kernel -> Prop) (xs : list A) (body : A -> cell unit) k k' :
  (forall x k1 k2, x ∈ xs -> P k1 -> body x k1 = (Ok (), k2) -> P k2) ->
  P k -> for_each xs body k = (Ok (), k') -> P k'.
Proof.
  revert k; induction xs as [|x xs IH]; intros k Hstep HP; simpl.
  - by intros [= <-].
  - intros ([] & k1 & Hx & Hrest)%cell_bind_ok.
    apply (IH k1); [| |done].
    + intros y ka kb Hy. apply Hstep. by apply list_elem_of_further.
    + apply (Hstep x k k1); [apply list_elem_of_here | done | done].
Qed.

Lemma loop_body_NoDup w key k k' :
  NoDup (all_data k).*1 -> loop_body w key k = (Ok (), k') -> NoDup (all_data k').*1.
Proof.
  intros Hk Hrun. destruct (contains "video_data.json" key) eqn:Hc.
  - apply loop_body_ok in Hrun as (body & vid_data & len & _ & _ & _ & ->); [|done].
    by apply dict_set_NoDup.
  - rewrite loop_body_skip in Hrun by done. by inversion Hrun; subst.
Qed.

(** Turns for other paths leave the entry of a path as it is. *)
Lemma for_each_other_paths w (keys : list string) (path : string) k k' :
  (forall key, key ∈ keys -> contains "video_data.json" key = true ->
               vid_path_of key <> path) ->
  for_each keys (loop_body w) k = (Ok (), k') ->
  dict_lookup path (all_data k') = dict_lookup path (all_data k).
Proof.
  intros Hother.
  apply (for_each_invariant
           (fun k1 => dict_lookup path (all_data k1) = dict_lookup path (all_data k)));
    [|done].
  intros key k1 k2 Hin Hk1 Hrun.
  destruct (contains "video_data.json" key) eqn:Hc.
  - apply loop_body_ok in Hrun as (body & vid_data & len & _ & _ & _ & ->); [|done].
    simpl. rewrite dict_lookup_set_ne; [done | by apply Hother].
  - rewrite loop_body_skip in Hrun by done. by inversion Hrun; subst.
Qed.

(** The run of the loop up to and including a key of the listing. *)
Lemma for_each_split w pre key post k k' :
  for_each (pre ++ key :: post) (loop_body w) k = (Ok (), k') ->
  exists k1 k2,
    for_each pre (loop_body w) k = (Ok (), k1) /\
    loop_body w key k1 = (Ok (), k2) /\
    for_each (pre ++ [key]) (loop_body w) k = (Ok (), k2) /\
    for_each post (loop_body w) k2 = (Ok (), k').
Proof.
  intros H. rewrite for_each_app in H.
  destruct (for_each pre (loop_body w) k) as [[[]|e] k1] eqn:Hpre; [|done].
  simpl in H. apply cell_bind_ok in H as ([] & k2 & Hkey & Hpost).
  exists k1, k2. repeat split; try done.
  rewrite for_each_app, Hpre. simpl. by rewrite (cell_bind_ok_l _ _ _ _ _ Hkey).
Qed.

Lemma dict_lookup_Some_key {V} (key : string) (v : V) d :
  dict_lookup key d = Some v -> key ∈ d.*1.
Proof.
  induction d as [|[k1 v1] d IH]; simpl; [done|].
  destruct (String.eqb_spec key k1) as [->|].
  - intros _. apply list_elem_of_here.
  - intros H. apply list_elem_of_further. by apply IH.
Qed.

(** C5.  When cell 2 has run, every object of the listing whose key has
    ['video_data.json'] in it has been downloaded and parsed, and its turn
    of the loop has stored, under the logical video path (the key without
    its last ['/'] component), the [time_end_ms] of the last element of
    [most_watched_moments] divided by 1000.  The [all_data] that the cell
    leaves has an entry under that path; it holds that duration unless an
    object listed later has the same path and has replaced it. *)
Theorem all_data_entry_stored w k0 k pre key post :
  cell_2 w k0 = (Ok (), k) ->
  (objects_all w).1 = pre ++ key :: post ->
  contains "video_data.json" key = true ->
  exists body vid_data t q,
    download_file w key = Ok body /\
    json_load w body = Ok vid_data /\
    doc_last_time_end_ms vid_data t /\
    numeric t = Some q /\
    (forall dir base, key = dir +:+ "/" +:+ base -> has_char "/"%char base = false ->
                      vid_path_of key = dir) /\
    (exists k1,
       for_each (pre ++ [key]) (loop_body w) (fresh k0) = (Ok (), k1) /\
       dict_lookup (vid_path_of key) (all_data k1)
         = Some (PFloat (q / Q2Qc (inject_Z 1000))%Qc) /\
       for_each post (loop_body w) k1 = (Ok (), k)) /\
    vid_path_of key ∈ (all_data k).*1 /\
    (dict_lookup (vid_path_of key) (all_data k)
       = Some (PFloat (q / Q2Qc (inject_Z 1000))%Qc) \/
     exists key', key' ∈ post /\ contains "video_data.json" key' = true /\
                  vid_path_of key' = vid_path_of key).
Proof.
  intros Hrun Hkeys Hc. apply cell_2_ok in Hrun. rewrite Hkeys in Hrun.
  apply for_each_split in Hrun as (kp & k2 & Hpre & Hkey & Hupto & Hpost).
  apply loop_body_ok in Hkey as (body & vid_data & len & Hd & Hj & Hl & ->); [|done].
  apply vid_len_of_spec in Hl as (t & q & Ht & Hq & _ & ->).
  set (len := PFloat (q / Q2Qc (inject_Z 1000))%Qc) in *.
  assert (Hstored : dict_lookup (vid_path_of key) (all_data (stored key body len kp))
                    = Some len) by (simpl; apply dict_lookup_set_eq).
  exists body, vid_data, t, q. repeat split; try done.
  - intros dir base -> Hbase. by apply vid_path_of_dir.
  - by exists (stored key body len kp).
  - apply (for_each_invariant (fun k' => vid_path_of key ∈ (all_data k').*1)
             post (loop_body w) (stored key body len kp) k); [| |done].
    + intros x ka kb _ Hin Hx. destruct (contains "video_data.json" x) eqn:Hcx.
      * apply loop_body_ok in Hx as (b' & v' & l' & _ & _ & _ & ->); [|done].
        cbn [stored all_data]. apply dict_set_keys. by right.
      * rewrite loop_body_skip in Hx by done. by inversion Hx; subst.
    + exact (dict_lookup_Some_key _ _ _ Hstored).
  - destruct (decide (Exists (fun key' => contains "video_data.json" key' = true /\
                                          vid_path_of key' = vid_path_of key) post))
      as [Hlater|Hnone].
    + right. apply list.Exists_exists in Hlater as (key' & Hin & Hc' & Hpath).
      exists key'. by repeat split.
    + left.
      assert (Hother : forall key', key' ∈ post -> contains "video_data.json" key' = true ->
                                    vid_path_of key' <> vid_path_of key).
      { intros key' Hin Hc' Hpath. apply Hnone, list.Exists_exists.
        exists key'. by repeat split. }
      by rewrite (for_each_other_paths w post (vid_path_of key) _ _ Hother Hpost).
Qed.

Lemma all_data_entry_stored_witness :
  let w := example_world in
  let pre := ["data/videos/17/UC1VU/a/video_data.json";
              "data/videos/17/UC1VU/a/thumbnail.jpg"] in
  let key := "data/videos/24/UCxOz/b/video_data.json" in
  let post := ["data/videos/17/UC1VU/a/video_data.json.bak"] in
  let k := (cell_2 w empty_kernel).2 in
  (cell_2 w empty_kernel = (Ok (), k) /\
   (objects_all w).1 = pre ++ key :: post /\
   contains "video_data.json" key = true) /\
  vid_path_of key = "data/videos/24/UCxOz/b" /\
  dict_lookup (vid_path_of key) (all_data k) = Some (PFloat (Q2Qc (inject_Z 1206))).
Proof.
  intros w pre key post k.
  assert (H1 : cell_2 w empty_kernel = (Ok (), k)) by (vm_compute; reflexivity).
  assert (H2 : (objects_all w).1 = pre ++ key :: post) by reflexivity.
  assert (H3 : contains "video_data.json" key = true) by reflexivity.
  split; [done|]. split; [reflexivity|].
  destruct (all_data_entry_stored w empty_kernel k pre key post H1 H2 H3)
    as (body & vid_data & t & q & Hd & Hj & Ht & Hq & _ & _ & _ & [Hget|Hlater]).
  - etrans; [exact Hget|].
    injection Hd as <-. injection Hj as <-.
    destruct Ht as (d & l & m & [= <-] & [= <-] & [= <-] & [= <-]).
    injection Hq as <-. f_equal. f_equal. by apply Qc_is_canon.
  - destruct Hlater as (key' & Hin & _ & Hpath).
    apply list_elem_of_singleton in Hin as ->. discriminate Hpath.
Defined.

(** C9.  For a document that is an object with a non-empty
    [most_watched_moments] list whose last element has a [time_end_ms]
    key, the three subscripts succeed and yield that field; for any other
    document they raise. *)
Theorem last_time_end_ms_total (vid_data : pyval) :
  (has_last_time_end_ms vid_data = true ->
     exists t, last_time_end_ms vid_data = Ok t /\ doc_last_time_end_ms vid_data t) /\
  (has_last_time_end_ms vid_data = false ->
     exists e, last_time_end_ms vid_data = Raise e).
Proof.
  split.
  - intros [t Ht]%has_last_time_end_ms_spec. exists t. split; [|done].
    by apply last_time_end_ms_spec.
  - intros Hno. destruct (last_time_end_ms vid_data) as [t|e] eqn:Hrun; [|by exists e].
    apply last_time_end_ms_spec in Hrun.
    assert (has_last_time_end_ms vid_data = true) as Hyes
      by (apply has_last_time_end_ms_spec; by exists t).
    congruence.
Qed.

Lemma all_data_NoDup w k0 k :
  cell_2 w k0 = (Ok (), k) -> NoDup (all_data k).*1.
Proof.
  intros Hrun. apply cell_2_ok in Hrun.
  apply (for_each_invariant (fun k1 => NoDup (all_data k1).*1) _ _ _ _
           (fun x k1 k2 _ => loop_body_NoDup w x k1 k2)) in Hrun; [done|].
  simpl. apply NoDup_nil_2.
Qed.

(** C10.  After the loop the keys of [all_data] are pairwise distinct,
    the entry of a path holds the duration of the last object of the
    listing with that path, and the [s3_path] column of the frame built
    from [all_data] has no value twice. *)
Theorem all_data_last_write_wins w k0 k :
  cell_2 w k0 = (Ok (), k) ->
  NoDup (all_data k).*1 /\
  (forall pre key post,
     (objects_all w).1 = pre ++ key :: post ->
     contains "video_data.json" key = true ->
     (forall key', key' ∈ post -> contains "video_data.json" key' = true ->
                   vid_path_of key' <> vid_path_of key) ->
     exists body vid_data len,
       download_file w key = Ok body /\
       json_load w body = Ok vid_data /\
       vid_len_of vid_data = Ok len /\
       dict_lookup (vid_path_of key) (all_data k) = Some len) /\
  (forall df k', cell_3 k = (Ok df, k') ->
     columns df = ["s3_path"; "vid_len"] /\
     NoDup ((fun r => cell_at r 0) <$> rows df)).
Proof.
  intros Hrun. pose proof (all_data_NoDup w k0 k Hrun) as Hnd.
  apply cell_2_ok in Hrun. split; [done|split].
  - intros pre key post Hkeys Hc Hlater. rewrite Hkeys in Hrun.
    apply for_each_split in Hrun as (k1 & k2 & _ & Hkey & _ & Hpost).
    apply loop_body_ok in Hkey as (body & vid_data & len & Hd & Hj & Hl & ->); [|done].
    exists body, vid_data, len. repeat split; try done.
    rewrite (for_each_other_paths w post (vid_path_of key) _ _ Hlater Hpost).
    simpl. apply dict_lookup_set_eq.
  - intros df k' [= <- <-]. split; [done|]. simpl.
    rewrite <- list_fmap_compose.
    change ((fun r => cell_at r 0) ∘ (fun kv : string * pyval => [PStr kv.1; kv.2]))
      with (PStr ∘ (fst : string * pyval -> string)).
    rewrite list_fmap_compose. apply NoDup_fmap_2; [|done].
    intros a b [= ->]. done.
Qed.

Lemma all_data_last_write_wins_witness :
  let w := example_world in
  let k := (cell_2 w empty_kernel).2 in
  cell_2 w empty_kernel = (Ok (), k) /\
  dict_lookup "data/videos/17/UC1VU/a" (all_data k)
    = Some (PFloat (Q2Qc (inject_Z 522))) /\
  NoDup (all_data k).*1.
Proof.
  intros w k.
  assert (H : cell_2 w empty_kernel = (Ok (), k)) by (vm_compute; reflexivity).
  split; [done|].
  destruct (all_data_last_write_wins w empty_kernel k H) as (Hnd & Hlast & _).
  split; [|done].
  destruct (Hlast ["data/videos/17/UC1VU/a/video_data.json";
                   "data/videos/17/UC1VU/a/thumbnail.jpg";
                   "data/videos/24/UCxOz/b/video_data.json"]
                  "data/videos/17/UC1VU/a/video_data.json.bak" [])
    as (body & vid_data & len & Hd & Hj & Hl & Hget).
  - reflexivity.
  - reflexivity.
  - intros key' Hin. by apply elem_of_nil in Hin.
  - etrans; [exact Hget|].
    injection Hd as <-. injection Hj as <-. injection Hl as <-.
    f_equal. f_equal. by apply Qc_is_canon.
Defined.

Lemma dict_lookup_elem {V} (key : string) (v : V) d :
  NoDup d.*1 -> (key, v) ∈ d -> dict_lookup key d = Some v.
Proof.
  induction d as [|[k1 v1] d IH]; simpl; intros Hnd Hin.
  - by apply elem_of_nil in Hin.
  - apply list.NoDup_cons in Hnd as [Hk1 Hnd].
    apply elem_of_cons in Hin as [[= -> ->]|Hin]; [by rewrite String.eqb_refl|].
    destruct (String.eqb_spec key k1) as [->|]; [|by apply IH].
    destruct Hk1. apply list_elem_of_fmap. by exists (k1, v).
Qed.

Lemma loop_body_queries w key k k' r :
  loop_body w key k = (r, k') -> queries k' = queries k.
Proof.
  unfold loop_body. destruct (contains "video_data.json" key); [|by intros [= _ <-]].
  unfold mbind, cell_bind, lift, write_file, open_read, store_all_data; simpl.
  destruct (download_file w key) as [body|]; [|by intros [= _ <-]].
  rewrite lookup_insert_eq.
  destruct (json_load w body) as [vid_data|]; [|by intros [= _ <-]].
  destruct (vid_len_of vid_data) as [len|]; by intros [= _ <-].
Qed.

Lemma key_eq_str (path : string) (v : pyval) :
  key_eq (PStr path) v = true -> v = PStr path.
Proof.
  destruct v; simpl; try done. by intros ->%String.eqb_eq.
Qed.

(** The rows of an inner join pair a left row with a right row of the
    same key. *)
Lemma merge_rows left right on f row :
  merge left right on = Ok f ->
  row ∈ rows f ->
  exists li ri l r,
    column_index on (columns left) = Some li /\
    column_index on (columns right) = Some ri /\
    l ∈ rows left /\ r ∈ rows right /\
    key_eq (cell_at l li) (cell_at r ri) = true /\
    row = l ++ delete ri r.
Proof.
  unfold merge.
  destruct (column_index on (columns left)) as [li|]; [|done].
  destruct (column_index on (columns right)) as [ri|]; [|done].
  intros [= <-]. cbn [rows]. intros Hrow.
  apply list_elem_of_bind in Hrow as (l & Hrow & Hl).
  apply list_elem_of_bind in Hrow as (r & Hrow & Hr).
  destruct (key_eq (cell_at l li) (cell_at r ri)) eqn:Hk; [|by apply elem_of_nil in Hrow].
  apply list_elem_of_singleton in Hrow as ->.
  by exists li, ri, l, r.
Qed.

(** C7.  A run of the notebook that reaches [final_df] has sent one
    statement to the database, the [SELECT *] on the videos table; of
    its answer the columns [s3_path] and [category_id] are kept, and
    each row of [final_df] is a path of [all_data] with its duration and
    the [category_id] of a row of that answer with the same [s3_path]. *)
Theorem final_df_category_from_videos w k0 final k :
  notebook w k0 = (Ok final, k) ->
  queries k = queries k0 ++ ["SELECT * FROM autoshorts.videos"] /\
  exists res df_vids i_path i_cat,
    execute w "SELECT * FROM autoshorts.videos" = Ok res /\
    select_columns ["s3_path"; "category_id"] res = Ok df_vids /\
    columns df_vids = ["s3_path"; "category_id"] /\
    column_index "s3_path" (columns res) = Some i_path /\
    column_index "category_id" (columns res) = Some i_cat /\
    columns final = ["s3_path"; "vid_len"; "category_id"] /\
    forall row, row ∈ rows final ->
      exists path len dbrow,
        row = [PStr path; len; cell_at dbrow i_cat] /\
        dict_lookup path (all_data k) = Some len /\
        dbrow ∈ rows res /\
        cell_at dbrow i_path = PStr path.
Proof.
  unfold notebook. intros H.
  apply cell_bind_ok in H as ([] & k1 & H2 & H).
  apply cell_bind_ok in H as (df & k2 & [= <- <-] & H).
  apply cell_bind_ok in H as (df_vids & k3 & H7 & H8).
  assert (queries k1 = queries k0) as Hq1.
  { apply cell_2_ok in H2.
    by apply (for_each_invariant (fun ka => queries ka = queries k0) _ _ _ _
                (fun x ka kb _ Ha Hb => eq_trans (loop_body_queries w x ka kb _ Hb) Ha))
      in H2. }
  pose proof (all_data_NoDup w k0 k1 H2) as Hnd.
  unfold cell_7 in H7. destruct (connect w); [done|].
  apply cell_bind_ok in H7 as ([] & k4 & [= <-] & H7).
  apply cell_bind_ok in H7 as (res & k5 & Hex & Hsel).
  unfold lift in Hex, Hsel. injection Hsel as Hsel <-. injection Hex as Hex <-.
  pose proof Hsel as Hsel0.
  unfold select_columns in Hsel. simpl in Hsel.
  destruct (column_index "s3_path" (columns res)) as [i_path|] eqn:Hip; [|done].
  destruct (column_index "category_id" (columns res)) as [i_cat|] eqn:Hic; [|done].
  simpl in Hsel. injection Hsel as <-.
  unfold cell_8, lift in H8. apply pair_equal_spec in H8 as [H8 <-].
  cbn [queries]. rewrite Hq1. split; [done|].
  match type of Hsel0 with
  | _ = Ok ?d => exists res, d, i_path, i_cat
  end.
  repeat split; try done.
  - unfold merge in H8. simpl in H8. injection H8 as <-. cbn [columns]. by vm_compute.
  - intros row Hrow.
    destruct (merge_rows _ _ _ _ _ H8 Hrow)
      as (li & ri & l & r & Hli & Hri & Hl & Hr & Hk & ->).
    simpl in Hli, Hri. injection Hli as <-. injection Hri as <-.
    apply list_elem_of_fmap in Hl as ([path len] & -> & Hl).
    apply list_elem_of_fmap in Hr as (dbrow & -> & Hr).
    change (key_eq (PStr path) (cell_at dbrow i_path) = true) in Hk.
    apply key_eq_str in Hk.
    exists path, len, dbrow. repeat split; try done.
    by apply dict_lookup_elem.
Qed.

Lemma final_df_category_from_videos_witness :
  let w := example_world in
  let final := match (notebook w empty_kernel).1 with
               | Ok f => f
               | Raise _ => {| columns := []; rows := [] |}
               end in
  let k := (notebook w empty_kernel).2 in
  notebook w empty_kernel = (Ok final, k) /\
  (fun r => (cell_at r 0, cell_at r 2)) <$> rows final
    = [(PStr "data/videos/17/UC1VU/a", PInt 17); (PStr "data/videos/24/UCxOz/b", PInt 24)] /\
  queries k = queries empty_kernel ++ ["SELECT * FROM autoshorts.videos"] /\
  exists res df_vids i_path i_cat,
    execute w "SELECT * FROM autoshorts.videos" = Ok res /\
    select_columns ["s3_path"; "category_id"] res = Ok df_vids /\
    columns df_vids = ["s3_path"; "category_id"] /\
    column_index "s3_path" (columns res) = Some i_path /\
    column_index "category_id" (columns res) = Some i_cat /\
    columns final = ["s3_path"; "vid_len"; "category_id"] /\
    forall row, row ∈ rows final ->
      exists path len dbrow,
        row = [PStr path; len; cell_at dbrow i_cat] /\
        dict_lookup path (all_data k) = Some len /\
        dbrow ∈ rows res /\
        cell_at dbrow i_path = PStr path.
Proof.
  intros w final k.
  assert (H : notebook w empty_kernel = (Ok final, k)) by (vm_compute; reflexivity).
  split; [done|]. split.
  - vm_compute. reflexivity.
  - exact (final_df_category_from_videos w empty_kernel final k H).
Defined.

Lemma last_time_end_ms_total_witness :
  (has_last_time_end_ms (video_data 507000) = true /\
   exists t, last_time_end_ms (video_data 507000) = Ok t /\
             doc_last_time_end_ms (video_data 507000) t) /\
  (has_last_time_end_ms (PDict [("most_watched_moments", PList [])]) = false /\
   exists e, last_time_end_ms (PDict [("most_watched_moments", PList [])]) = Raise e).
Proof.
  split.
  - split; [reflexivity|].
    exact (proj1 (last_time_end_ms_total (video_data 507000)) eq_refl).
  - split; [reflexivity|].
    exact (proj2 (last_time_end_ms_total (PDict [("most_watched_moments", PList [])]))
             eq_refl).
Defined.

(** ** The asyncio notebook *)

Lemma start_gather aws k st :
  start (Gather aws k) st =
  let '(ts, st') := start_all aws st in
  match gather_status ts with
  | AllDone vs => start (k vs) st'
  | Failed e => (Done (Raise e), detach ts st')
  | Waiting => (WaitGather ts k, st')
  end.
Proof. reflexivity. Qed.

Lemma deliver_gather fut r ts k st :
  deliver fut r (WaitGather ts k) st =
  let '(ts', st') := deliver_all fut r ts st in
  match gather_status ts' with
  | AllDone vs => start (k vs) st'
  | Failed e => (Done (Raise e), detach ts' st')
  | Waiting => (WaitGather ts' k, st')
  end.
Proof. reflexivity. Qed.

(** *** The queue of jobs *)

Lemma take_job_None fut q :
  take_job fut q = None <-> forall j, j ∈ q -> job_future j <> fut.
Proof.
  induction q as [|j q IH]; simpl.
  - split; [intros _ j Hj; by apply elem_of_nil in Hj | done].
  - destruct (Nat.eqb_spec (job_future j) fut) as [Heq|Hne].
    + split; [done|]. intros H. destruct (H j); [apply list_elem_of_here | done].
    + destruct (take_job fut q) as [[j' q']|]; simpl.
      * split; [done|]. intros H.
        assert (Some (j', q') = None) as Habs; [|done].
        apply IH. intros j0 Hj0. apply H. by apply list_elem_of_further.
      * split; [|done]. intros _ j0 [->|Hj0]%elem_of_cons; [done|].
        by apply (proj1 IH).
Qed.

Lemma take_job_Some fut q j q' :
  take_job fut q = Some (j, q') ->
  job_future j = fut /\
  exists q1 q2, q = q1 ++ j :: q2 /\ q' = q1 ++ q2 /\
                forall j1, j1 ∈ q1 -> job_future j1 <> fut.
Proof.
  revert q'; induction q as [|j0 q IH]; simpl; intros q'; [done|].
  destruct (Nat.eqb_spec (job_future j0) fut) as [Heq|Hne].
  - intros [= <- <-]. split; [done|]. exists [], q. split; [done|]. split; [done|].
    intros j1 Hj1. by apply elem_of_nil in Hj1.
  - destruct (take_job fut q) as [[j' q1]|]; simpl; [|done].
    intros [= <- <-]. destruct (IH q1 eq_refl) as (Hf & qa & qb & -> & -> & Hqa).
    split; [done|]. exists (j0 :: qa), qb. split; [done|]. split; [done|].
    intros j1 [->|Hj1]%elem_of_cons; [done | by apply Hqa].
Qed.

(** The job submitted last is found under its future when no older job
    has that future. *)
Lemma take_job_snoc fut q j :
  (forall j1, j1 ∈ q -> job_future j1 <> fut) ->
  job_future j = fut ->
  take_job fut (q ++ [j]) = Some (j, q).
Proof.
  intros Hq Hj. induction q as [|j0 q IH]; simpl.
  - rewrite Hj, Nat.eqb_refl. done.
  - destruct (Nat.eqb_spec (job_future j0) fut) as [Heq|Hne].
    + destruct (Hq j0); [apply list_elem_of_here | done].
    + rewrite IH; [done|]. intros j1 Hj1. apply Hq. by apply list_elem_of_further.
Qed.

Lemma new_event_loop_idle id : idle_tasks (new_event_loop id).
Proof. split; [done|]. intros j Hj. by apply elem_of_nil in Hj. Qed.

(** Taking another job out leaves the job of a future in the queue. *)
Lemma take_job_other fut fut' q j q1 j' q' :
  fut' <> fut ->
  take_job fut q = Some (j, q1) ->
  take_job fut' q = Some (j', q') ->
  exists q2, take_job fut q' = Some (j, q2).
Proof.
  intros Hne. revert q1 q'. induction q as [|j0 q IH]; simpl; intros q1 q'; [done|].
  destruct (Nat.eqb_spec (job_future j0) fut) as [Heq|Hne0].
  - intros [= <- <-]. rewrite (proj2 (Nat.eqb_neq _ _)) by congruence.
    destruct (take_job fut' q) as [[ja qa]|]; simpl; [|done].
    intros [= <- <-]. simpl. rewrite (proj2 (Nat.eqb_eq _ _) Heq). eauto.
  - destruct (take_job fut q) as [[ja qa]|] eqn:Hq; simpl; [|done].
    intros [= <- <-].
    destruct (Nat.eqb_spec (job_future j0) fut') as [Heq'|Hne'].
    + intros [= <- <-]. eauto.
    + destruct (take_job fut' q) as [[jb qb]|] eqn:Hq'; simpl; [|done].
      intros [= <- <-]. simpl. rewrite (proj2 (Nat.eqb_neq _ _) Hne0).
      destruct (IH qa qb eq_refl eq_refl) as [q2 ->]. simpl. eauto.
Qed.

(** A task suspended on the future of a queued call finishes with what
    the future is resolved with, whatever else completes before. *)
Lemma run_tasks_wait_future order fut st j q r :
  detached st = [] ->
  take_job fut (work st) = Some (j, q) ->
  future_outcome (job_func j ()) = Some r ->
  fut ∈ order ->
  (run_tasks order (WaitFuture fut Return) st).1 = Some r.
Proof.
  revert st q. induction order as [|fut' order IH]; intros st q Hdet Hjob Hr Hin.
  - by apply elem_of_nil in Hin.
  - simpl. unfold complete.
    destruct (decide (fut' = fut)) as [->|Hne].
    + rewrite Hjob, Hr, Hdet. simpl. rewrite Nat.eqb_refl.
      destruct r as [v|e]; simpl; by destruct order.
    + apply elem_of_cons in Hin as [?|Hin]; [congruence|].
      destruct (take_job fut' (work st)) as [[j' q']|] eqn:Hother; [|by apply (IH _ q)].
      destruct (take_job_other _ _ _ _ _ _ _ Hne Hjob Hother) as [q2 Hq2].
      destruct (future_outcome (job_func j' ())) as [r'|]; [|by apply (IH _ q2)].
      rewrite Hdet. simpl. rewrite (proj2 (Nat.eqb_neq _ _)) by congruence.
      by apply (IH _ q2).
Qed.

Lemma dict_lookup_None {V} (key : string) (d : list (string * V)) :
  key ∉ d.*1 -> dict_lookup key d = None.
Proof.
  induction d as [|[k1 v1] d IH]; simpl; [done|].
  intros [Hne Hd]%not_elem_of_cons.
  destruct (String.eqb_spec key k1); [done | by apply IH].
Qed.

Lemma filter_unreserved (kw : list (string * pyval)) :
  (forall key, key ∈ kw.*1 -> reserved key = false) ->
  filter (fun p => reserved p.1 = false) kw = kw.
Proof.
  induction kw as [|[k1 v1] kw IH]; intros Hkw; [done|].
  rewrite filter_cons_True by (apply Hkw, list_elem_of_here).
  f_equal. apply IH. intros key Hkey. apply Hkw. by apply list_elem_of_further.
Qed.

(** Keyword arguments that do not use the names [loop] and [executor]
    all reach [kwargs], and [run] is entered with its defaults. *)
Lemma to_async_unreserved func args (kw : list (string * pyval)) :
  (forall key, key ∈ kw.*1 -> reserved key = false) ->
  to_async func args kw = run func args PNone PNone kw.
Proof.
  intros Hkw. unfold to_async.
  rewrite (filter_unreserved kw Hkw), !dict_lookup_None; [done| |].
  - intros Hin. by specialize (Hkw _ Hin).
  - intros Hin. by specialize (Hkw _ Hin).
Qed.

(** Awaiting [to_async(func)] on arguments gives what the future of the
    call of [func] on them is resolved with. *)
Lemma run_to_async func args kw order st r :
  idle_tasks st ->
  next_future st ∈ order ->
  (forall key, key ∈ kw.*1 -> reserved key = false) ->
  future_outcome (func args kw) = Some r ->
  (run_until_complete (to_async func args kw) order st).1 = Some r.
Proof.
  intros [Hdet Hold] Hin Hkw Hr. rewrite to_async_unreserved by done.
  unfold run_until_complete, run. simpl. rewrite Nat.eqb_refl.
  apply (run_tasks_wait_future order (next_future st) (submit None _ st)
           {| job_future := next_future st; job_pool := DefaultExecutor;
              job_func := partial func args kw |} (work st)); [done| |done|done].
  simpl. apply take_job_snoc; [|done].
  intros j1 Hj1. specialize (Hold j1 Hj1). lia.
Qed.

(** C1, amended.  For keyword arguments other than [loop] and
    [executor], which [run] takes for itself: on a loop with nothing
    detached, once the worker has finished the call, awaiting the coroutine
    of [to_async(func)] on the arguments resolves to the value [func]
    returns on them. *)
Theorem to_async_returns func args kw order st v :
  idle_tasks st ->
  next_future st ∈ order ->
  (forall key, key ∈ kw.*1 -> reserved key = false) ->
  func args kw = Ok v ->
  (run_until_complete (to_async func args kw) order st).1 = Some (Ok v).
Proof. intros Hst Hin Hkw Hv. apply run_to_async; try done. by rewrite Hv. Qed.

Lemma to_async_returns_witness :
  let func : callable := fun args kwargs => Ok (PList (args ++ kwargs.*2)) in
  let kw : list (string * pyval) := [("retries", PInt 3)] in
  (idle_tasks (new_event_loop 0) /\
   next_future (new_event_loop 0) ∈ [0%nat] /\
   (forall key, key ∈ kw.*1 -> reserved key = false) /\
   func [PStr "abc"] kw = Ok (PList [PStr "abc"; PInt 3])) /\
  (run_until_complete (to_async func [PStr "abc"] kw) [0%nat] (new_event_loop 0)).1
    = Some (Ok (PList [PStr "abc"; PInt 3])).
Proof.
  intros func kw.
  assert (H1 : idle_tasks (new_event_loop 0)) by apply new_event_loop_idle.
  assert (H2 : next_future (new_event_loop 0) ∈ [0%nat]) by apply list_elem_of_here.
  assert (H3 : forall key, key ∈ kw.*1 -> reserved key = false)
    by (intros key ->%list_elem_of_singleton; reflexivity).
  assert (H4 : func [PStr "abc"] kw = Ok (PList [PStr "abc"; PInt 3])) by reflexivity.
  split; [done|].
  exact (to_async_returns func [PStr "abc"] kw [0%nat] (new_event_loop 0)
           (PList [PStr "abc"; PInt 3]) H1 H2 H3 H4).
Defined.

(** C1 as stated fails on the keywords [executor] and [loop]: [run] keeps
    them, so [func] is called without them and returns something else. *)
Lemma to_async_keeps_its_keywords :
  (has_keyword "executor" [] [("executor", PExecutor _executor)] = Ok (PInt 1) /\
   (run_until_complete
      (to_async (has_keyword "executor") [] [("executor", PExecutor _executor)])
      [0%nat] (new_event_loop 0)).1 = Some (Ok (PInt 0))) /\
  (has_keyword "loop" [] [("loop", PLoop 0)] = Ok (PInt 1) /\
   (run_until_complete (to_async (has_keyword "loop") [] [("loop", PLoop 0)])
      [0%nat] (new_event_loop 0)).1 = Some (Ok (PInt 0))).
Proof. repeat split; reflexivity. Qed.

Lemma future_outcome_passes e :
  passes_through e = true -> future_outcome (Raise e) = Some (Raise e).
Proof. by destruct e. Qed.

(** C2, amended.  Under the same conditions, an exception [func] raises
    comes out of the await unchanged, unless its class is [StopIteration]
    or derived from it, or is one of the three exception classes of
    [concurrent.futures], which asyncio does not hand on as they are; and
    a call that returns raises nothing. *)
Theorem to_async_raises func args kw order st :
  idle_tasks st ->
  next_future st ∈ order ->
  (forall key, key ∈ kw.*1 -> reserved key = false) ->
  (forall e, func args kw = Raise e -> passes_through e = true ->
             (run_until_complete (to_async func args kw) order st).1 = Some (Raise e)) /\
  (forall v, func args kw = Ok v ->
             forall e, (run_until_complete (to_async func args kw) order st).1
                       <> Some (Raise e)).
Proof.
  intros Hst Hin Hkw. split.
  - intros e He Hpass. apply run_to_async; try done.
    rewrite He. by apply future_outcome_passes.
  - intros v Hv e. rewrite (run_to_async func args kw order st (Ok v)); try done.
    by rewrite Hv.
Qed.

Lemma to_async_raises_witness :
  (idle_tasks (new_event_loop 0) /\
   next_future (new_event_loop 0) ∈ [0%nat] /\
   (forall key, key ∈ ([] : list (string * pyval)).*1 -> reserved key = false)) /\
  (run_until_complete (to_async (fun _ _ => Raise (OtherError "HTTPError")) [PInt 7] [])
     [0%nat] (new_event_loop 0)).1 = Some (Raise (OtherError "HTTPError")).
Proof.
  assert (H1 : idle_tasks (new_event_loop 0)) by apply new_event_loop_idle.
  assert (H2 : next_future (new_event_loop 0) ∈ [0%nat]) by apply list_elem_of_here.
  assert (H3 : forall key, key ∈ ([] : list (string * pyval)).*1 -> reserved key = false)
    by (intros key Hkey; by apply elem_of_nil in Hkey).
  split; [done|].
  exact (proj1 (to_async_raises (fun _ _ => Raise (OtherError "HTTPError")) [PInt 7] []
                  [0%nat] (new_event_loop 0) H1 H2 H3)
           (OtherError "HTTPError") eq_refl eq_refl).
Defined.

(** C2 as stated fails in four ways.  The await raises
    [asyncio.CancelledError] when [func] raises
    [concurrent.futures.CancelledError], and likewise for the two other
    classes of [concurrent.futures]; it raises nothing, and does not
    resolve, when [func] raises [StopIteration]; it raises nothing and
    returns the value of the exception when [func] raises an instance of
    a class derived from [StopIteration]; and it raises [AttributeError]
    although [func] would return, when the keyword [executor] holds
    something that is not an executor. *)
Lemma to_async_exception_changed :
  ((run_until_complete (to_async (fun _ _ => Raise FuturesCancelledError) [] [])
      [0%nat] (new_event_loop 0)).1 = Some (Raise CancelledError) /\
   (run_until_complete (to_async (fun _ _ => Raise FuturesTimeoutError) [] [])
      [0%nat] (new_event_loop 0)).1 = Some (Raise TimeoutError) /\
   (run_until_complete (to_async (fun _ _ => Raise FuturesInvalidStateError) [] [])
      [0%nat] (new_event_loop 0)).1 = Some (Raise InvalidStateError)) /\
  (run_until_complete (to_async (fun _ _ => Raise StopIteration) [] [])
     [0%nat] (new_event_loop 0)).1 = None /\
  (run_until_complete
     (to_async (fun _ _ => Raise (StopIterationSubclass "MyStop" (PInt 5))) [] [])
     [0%nat] (new_event_loop 0)).1 = Some (Ok (PInt 5)) /\
  (has_keyword "executor" [] [("executor", PInt 5)] = Ok (PInt 1) /\
   (run_until_complete (to_async (has_keyword "executor") [] [("executor", PInt 5)])
      [0%nat] (new_event_loop 0)).1 = Some (Raise AttributeError)).
Proof. repeat split; reflexivity. Qed.

(** After [StopIteration] the future is never resolved: the awaiter stays
    suspended however long the loop runs. *)
Lemma to_async_stop_iteration_pending order :
  (run_until_complete (to_async (fun _ _ => Raise StopIteration) [] [])
     order (new_event_loop 0)).1 = None.
Proof.
  unfold run_until_complete. simpl.
  assert (forall q, (forall j, j ∈ q -> job_func j () = Raise StopIteration) ->
            forall st, work st = q ->
            (run_tasks order (WaitFuture 0 Return) st).1 = None) as Hpending.
  { induction order as [|fut order IH]; intros q Hq st Hst; [done|].
    simpl. unfold complete. rewrite Hst.
    destruct (take_job fut q) as [[j q']|] eqn:Htake; [|by apply (IH q)].
    apply take_job_Some in Htake as (_ & q1 & q2 & -> & -> & _).
    rewrite (Hq j) by (apply elem_of_app; right; apply list_elem_of_here). simpl.
    apply (IH (q1 ++ q2)); [|done].
    intros j' Hj'. apply Hq. rewrite elem_of_app, elem_of_cons.
    apply elem_of_app in Hj'. tauto. }
  eapply Hpending; [|reflexivity].
  intros j ->%list_elem_of_singleton. reflexivity.
Qed.

(** *** The tasks of a [gather] over wrapped calls *)

Lemma start_call_with func st :
  start (call_with func) st =
  (WaitFuture (next_future st) Return, submit None (partial func [] []) st).
Proof. unfold call_with, to_async. simpl. by rewrite Nat.eqb_refl. Qed.

Lemma start_all_calls funcs st :
  start_all (call_with <$> funcs) st =
  (slot_tasks (next_future st) (replicate (length funcs) None),
   {| loop_id := loop_id st;
      next_future := next_future st + length funcs;
      work := work st ++ slot_jobs (next_future st) funcs (replicate (length funcs) None);
      stdout := stdout st;
      detached := detached st |}).
Proof.
  revert st. induction funcs as [|f funcs IH]; intros st.
  - simpl. rewrite Nat.add_0_r, app_nil_r. by destruct st.
  - cbn [fmap list_fmap start_all]. rewrite start_call_with, IH. simpl.
    rewrite <- app_assoc. simpl. by rewrite Nat.add_succ_r.
Qed.

Lemma gather_status_slots b filled :
  gather_status (slot_tasks b filled) =
  match all_values filled with
  | Some vs => AllDone vs
  | None => Waiting
  end.
Proof.
  revert b. induction filled as [|[v|] filled IH]; intros b; simpl; [done| |].
  - rewrite IH. by destruct (all_values filled).
  - rewrite IH. by destruct (all_values filled).
Qed.

Lemma deliver_all_slots fut v b filled st :
  deliver_all fut (Ok v) (slot_tasks b filled) st = (slot_tasks b (fill b fut v filled), st).
Proof.
  revert b. induction filled as [|[x|] filled IH]; intros b; simpl; [done| |].
  - by rewrite IH.
  - destruct (Nat.eqb_spec b fut) as [->|Hne]; simpl; by rewrite IH.
Qed.

Lemma fill_above b fut v filled :
  (fut < b)%nat -> fill b fut v filled = filled.
Proof.
  revert b. induction filled as [|[x|] filled IH]; intros b Hb; simpl; [done| |].
  - rewrite IH by lia. done.
  - rewrite IH by lia. by rewrite (proj2 (Nat.eqb_neq _ _)) by lia.
Qed.

Lemma slot_jobs_above b fut funcs filled j :
  (fut < b)%nat -> j ∈ slot_jobs b funcs filled -> job_future j <> fut.
Proof.
  revert b filled. induction funcs as [|f funcs IH]; intros b [|o filled] Hb; simpl;
    try (intros Hj; by apply elem_of_nil in Hj).
  intros [Hj|Hj]%elem_of_app.
  - destruct o; [by apply elem_of_nil in Hj|].
    apply list_elem_of_singleton in Hj as ->. simpl. lia.
  - apply (IH (S b) filled); [lia | done].
Qed.

(** A future that no unfinished call waits on has no job. *)
Lemma take_slot_job_None b fut v funcs filled :
  (forall i, filled !! i = Some None -> b + i <> fut)%nat ->
  take_job fut (slot_jobs b funcs filled) = None /\ fill b fut v filled = filled.
Proof.
  revert b filled. induction funcs as [|f funcs IH]; intros b filled Hfree.
  - split; [by destruct filled|].
    revert b Hfree. induction filled as [|[x|] filled IHf]; intros b Hfree; simpl; [done| |].
    + rewrite IHf; [done|]. intros i Hi. specialize (Hfree (S i) Hi). lia.
    + rewrite (proj2 (Nat.eqb_neq _ _)) by (specialize (Hfree 0%nat eq_refl); lia).
      rewrite IHf; [done|]. intros i Hi. specialize (Hfree (S i) Hi). lia.
  - destruct filled as [|o filled]; [done|].
    assert (forall i, filled !! i = Some None -> S b + i <> fut)%nat as Hrest
      by (intros i Hi; specialize (Hfree (S i) Hi); lia).
    destruct (IH (S b) filled Hrest) as [Htake Hfill].
    destruct o as [x|]; simpl.
    + by rewrite Htake, Hfill.
    + assert (b <> fut) as Hb by (specialize (Hfree 0%nat eq_refl); lia).
      rewrite (proj2 (Nat.eqb_neq _ _) Hb), Htake, Hfill. done.
Qed.

(** The job of an unfinished call is in the queue under its future;
    taking it out leaves the jobs of the other unfinished calls. *)
Lemma take_slot_job_Some b i v f funcs filled :
  funcs !! i = Some f ->
  filled !! i = Some None ->
  take_job (b + i) (slot_jobs b funcs filled) =
  Some ({| job_future := b + i; job_pool := DefaultExecutor; job_func := partial f [] [] |},
        slot_jobs b funcs (fill b (b + i) v filled)).
Proof.
  revert b i filled. induction funcs as [|f0 funcs IH]; intros b i filled Hf Hi; [done|].
  destruct filled as [|o filled]; [done|].
  destruct i as [|i]; simpl in Hf, Hi.
  - injection Hf as ->. injection Hi as ->. simpl.
    rewrite Nat.add_0_r, Nat.eqb_refl. simpl. by rewrite fill_above by lia.
  - specialize (IH (S b) i filled Hf Hi).
    replace (S b + i)%nat with (b + S i)%nat in IH by lia.
    destruct o as [x|]; simpl.
    + by rewrite IH.
    + rewrite (proj2 (Nat.eqb_neq _ _)) by lia. by rewrite IH.
Qed.

Lemma slot_jobs_all_filled b funcs filled vs :
  all_values filled = Some vs -> slot_jobs b funcs filled = [].
Proof.
  revert b filled vs. induction funcs as [|f funcs IH]; intros b [|[x|] filled] vs; simpl;
    try done.
  destruct (all_values filled) as [vs'|] eqn:Hv; [|done]. intros _. by apply (IH _ _ vs').
Qed.

Lemma all_values_None filled :
  all_values filled = None -> exists i, filled !! i = Some None.
Proof.
  induction filled as [|[x|] filled IH]; simpl; [done| |].
  - destruct (all_values filled); [done|]. intros _.
    destruct (IH eq_refl) as [i Hi]. by exists (S i).
  - intros _. by exists 0%nat.
Qed.

Lemma agrees_all_values filled vs vs' :
  agrees filled vs -> all_values filled = Some vs' -> vs' = vs.
Proof.
  intros H. revert vs'. induction H as [|o v filled vs Ho _ IH]; intros vs'; simpl.
  - by intros [= <-].
  - destruct o as [x|]; [|done]. destruct Ho as [|[= ->]]; [done|].
    destruct (all_values filled) as [vs0|]; [|done]. simpl. intros [= <-].
    by rewrite (IH vs0 eq_refl).
Qed.

Lemma agrees_fill b i v filled vs :
  agrees filled vs -> vs !! i = Some v -> agrees (fill b (b + i) v filled) vs.
Proof.
  intros H. revert b i. induction H as [|o x filled vs Ho Hrest IH]; intros b i Hv; simpl.
  - constructor.
  - destruct i as [|i]; simpl in Hv.
    + injection Hv as ->. rewrite Nat.add_0_r, fill_above by lia.
      destruct o; constructor; try done. rewrite Nat.eqb_refl. by right.
    + specialize (IH (S b) i Hv). replace (S b + i)%nat with (b + S i)%nat in IH by lia.
      destruct o; constructor; try done.
      rewrite (proj2 (Nat.eqb_neq _ _)) by lia. by left.
Qed.

Lemma fill_lookup_None b fut v filled i :
  fill b fut v filled !! i = Some None -> filled !! i = Some None /\ (b + i <> fut)%nat.
Proof.
  revert b i. induction filled as [|o filled IH]; intros b i; simpl; [done|].
  destruct i as [|i].
  - destruct o as [x|]; simpl; [done|].
    destruct (Nat.eqb_spec b fut); [done|]. intros _. split; [done | lia].
  - destruct o as [x|]; simpl; intros Hi; destruct (IH (S b) i Hi); split; try done; lia.
Qed.

Lemma fill_length b fut v filled : length (fill b fut v filled) = length filled.
Proof.
  revert b. induction filled as [|[x|] filled IH]; intros b; simpl; by rewrite ?IH.
Qed.

(** While calls are unfinished the awaiter of [gather] stays suspended;
    when the last one finishes it gets the values in the order of the
    calls, whatever the order the futures were completed in. *)
Lemma run_tasks_gather funcs vs order :
  Forall2 (fun (f : callable) v => f [] [] = Ok v) funcs vs ->
  forall filled st,
    length filled = length funcs ->
    work st = slot_jobs 0 funcs filled ->
    detached st = [] ->
    agrees filled vs ->
    all_values filled = None ->
    (forall i, filled !! i = Some None -> i ∈ order) ->
    exists st',
      run_tasks order (WaitGather (slot_tasks 0 filled) print_list) st
        = (Some (Ok PNone), st') /\
      stdout st' = stdout st ++ [PList vs] /\ work st' = [].
Proof.
  intros Hfuncs. induction order as [|fut order IH];
    intros filled st Hlen Hwork Hdet Hagree Hopen Hcover.
  - destruct (all_values_None filled Hopen) as [i Hi].
    specialize (Hcover i Hi). by apply elem_of_nil in Hcover.
  - cbn [run_tasks]. unfold complete.
    destruct (filled !! fut) as [[x|]|] eqn:Hfut.
    + (* the call has finished before: no job under this future *)
      destruct (take_slot_job_None 0 fut PNone funcs filled) as [Hnone _].
      { intros i Hi. simpl. intros ->. congruence. }
      rewrite Hwork, Hnone. apply IH; try done.
      intros i Hi. specialize (Hcover i Hi).
      apply elem_of_cons in Hcover as [->|]; [congruence | done].
    + (* the call finishes now *)
      assert (is_Some (funcs !! fut)) as [f Hf].
      { apply lookup_lt_is_Some. rewrite <- Hlen. by apply lookup_lt_Some in Hfut. }
      destruct (Forall2_lookup_l _ _ _ _ _ Hfuncs Hf) as (v & Hv & Hcall).
      pose proof (take_slot_job_Some 0 fut v f funcs filled Hf Hfut) as Htake.
      pose proof (agrees_fill 0 fut v filled vs Hagree Hv) as Hagree'.
      change (0 + fut)%nat with fut in Htake, Hagree'.
      rewrite Hwork, Htake, Hdet.
      cbn [job_func]. unfold partial at 1. rewrite Hcall. cbn [future_outcome].
      rewrite deliver_gather, deliver_all_slots, gather_status_slots.
      destruct (all_values (fill 0 fut v filled)) as [vs'|] eqn:Hall.
      * rewrite (agrees_all_values _ _ _ Hagree' Hall).
        cbn. eexists. split; [by destruct order|]. split; [done|].
        cbn. by apply (slot_jobs_all_filled _ _ _ vs').
      * cbn.
        match goal with
        | |- context [run_tasks order _ ?s] =>
            destruct (IH (fill 0 fut v filled) s) as (st' & Hrun & Hout & Hw)
        end; try done.
        -- by rewrite fill_length.
        -- intros i Hi. apply (fill_lookup_None 0) in Hi as [Hi Hne].
           specialize (Hcover i Hi).
           apply elem_of_cons in Hcover as [->|]; [done | done].
        -- by exists st'.
    + (* no call waits on this future *)
      destruct (take_slot_job_None 0 fut PNone funcs filled) as [Hnone _].
      { intros i Hi. simpl. intros ->. congruence. }
      rewrite Hwork, Hnone. apply IH; try done.
      intros i Hi. specialize (Hcover i Hi).
      apply elem_of_cons in Hcover as [->|]; [congruence | done].
Qed.

Lemma agrees_unfilled (vs : list pyval) : agrees (replicate (length vs) None) vs.
Proof. induction vs; simpl; constructor; [by left | done]. Qed.

Lemma run_main_with funcs vs id order :
  Forall2 (fun (f : callable) v => f [] [] = Ok v) funcs vs ->
  (forall i, (i < length funcs)%nat -> i ∈ order) ->
  exists st',
    run_until_complete (main_with funcs) order (new_event_loop id)
      = (Some (Ok PNone), st') /\
    stdout st' = [PList vs].
Proof.
  intros Hfuncs Hcover. unfold run_until_complete, main_with.
  rewrite start_gather, start_all_calls, gather_status_slots.
  pose proof (list.Forall2_length _ _ _ Hfuncs) as Hlen.
  destruct funcs as [|f funcs].
  - apply Forall2_nil_inv_l in Hfuncs as ->. cbn. eexists. split; [by destruct order | done].
  - cbn [length replicate all_values].
    edestruct (run_tasks_gather (f :: funcs) vs order Hfuncs
                 (replicate (length (f :: funcs)) None)) as (st' & Hrun & Hout & _);
      [| | | | | |exists st'; split; [exact Hrun | exact Hout]].
    + by rewrite length_replicate.
    + reflexivity.
    + reflexivity.
    + rewrite Hlen. apply agrees_unfilled.
    + reflexivity.
    + intros i Hi. apply Hcover. apply lookup_lt_Some in Hi.
      by rewrite length_replicate in Hi.
Qed.

Lemma main_unfold :
  main = main_with [api_func_def; api_func_def; api_func_def; api_func_def].
Proof. reflexivity. Qed.

(** The jobs of calls none of which has finished: one for each call, in
    the order of the calls, under consecutive futures. *)
Lemma slot_jobs_unfilled b (funcs : list callable) :
  job_future <$> slot_jobs b funcs (replicate (length funcs) None)
    = seq b (length funcs) /\
  Forall2 (fun j (f : callable) => job_pool j = DefaultExecutor /\
                                   job_func j = partial f [] [])
    (slot_jobs b funcs (replicate (length funcs) None)) funcs.
Proof.
  revert b. induction funcs as [|f funcs IH]; intros b; [by split; [|constructor]|].
  destruct (IH (S b)) as [Hfut Hjobs]. cbn. split; [by rewrite Hfut|].
  by constructor.
Qed.

Lemma start_main_with (funcs : list callable) id :
  work (start (main_with funcs) (new_event_loop id)).2
    = slot_jobs 0 funcs (replicate (length funcs) None).
Proof.
  unfold main_with. rewrite start_gather, start_all_calls, gather_status_slots.
  by destruct funcs.
Qed.

(** C4.  [main] is the join of four calls of [api_func]: started, it
    submits one job for each call, in the order the calls are passed to
    [gather].  For any wrapped functions in place of [api_func], and
    whatever the order in which the workers finish the jobs, the list that
    the join returns and [main] prints holds at position [i] the value of
    the call passed at position [i], which is the job submitted [i]-th.
    So [main] prints [[1, 1, 1, 1]], each element the value of the job at
    its position. *)
Theorem gather_keeps_submission_order :
  main = main_with [api_func_def; api_func_def; api_func_def; api_func_def] /\
  (forall (funcs : list callable) vs id order,
     Forall2 (fun (f : callable) v => f [] [] = Ok v) funcs vs ->
     (forall i, (i < length funcs)%nat -> i ∈ order) ->
     let st := (start (main_with funcs) (new_event_loop id)).2 in
     job_future <$> work st = seq 0 (length funcs) /\
     Forall2 (fun j (f : callable) => job_pool j = DefaultExecutor /\
                                      job_func j = partial f [] []) (work st) funcs /\
     exists st',
       run_until_complete (main_with funcs) order (new_event_loop id)
         = (Some (Ok PNone), st') /\
       stdout st' = [PList vs]) /\
  (forall id order,
     (forall i, (i < 4)%nat -> i ∈ order) ->
     let st := (start main (new_event_loop id)).2 in
     job_future <$> work st = [0; 1; 2; 3]%nat /\
     Forall2 (fun j v => job_func j () = Ok v) (work st)
       [PInt 1; PInt 1; PInt 1; PInt 1] /\
     exists st',
       run_until_complete main order (new_event_loop id) = (Some (Ok PNone), st') /\
       stdout st' = [PList [PInt 1; PInt 1; PInt 1; PInt 1]]).
Proof.
  split; [reflexivity|]. split.
  - intros funcs vs id order Hfuncs Hcover st. subst st.
    rewrite start_main_with.
    destruct (slot_jobs_unfilled 0 funcs) as [Hfut Hjobs].
    split; [done|]. split; [done|]. by apply run_main_with.
  - intros id order Hcover st. subst st. rewrite main_unfold, start_main_with.
    split; [reflexivity|]. split; [by repeat constructor|].
    apply run_main_with; [|done]. by repeat constructor.
Qed.

Lemma gather_keeps_submission_order_witness :
  (exists st',
     run_until_complete main [2; 0; 3; 1]%nat (new_event_loop 0) = (Some (Ok PNone), st') /\
     stdout st' = [PList [PInt 1; PInt 1; PInt 1; PInt 1]]) /\
  (exists st',
     run_until_complete
       (main_with [fun _ _ => Ok (PInt 10); fun _ _ => Ok (PInt 20); fun _ _ => Ok (PInt 30)])
       [2; 0; 1]%nat (new_event_loop 0) = (Some (Ok PNone), st') /\
     stdout st' = [PList [PInt 10; PInt 20; PInt 30]]).
Proof.
  destruct gather_keeps_submission_order as (_ & Hany & Hmain). split.
  - apply (Hmain 0%nat [2; 0; 3; 1]%nat). intros i Hi.
    destruct i as [|[|[|[|i]]]]; [| | | |lia];
      in_list.
  - apply (Hany [fun _ _ => Ok (PInt 10); fun _ _ => Ok (PInt 20); fun _ _ => Ok (PInt 30)]
                [PInt 10; PInt 20; PInt 30] 0%nat [2; 0; 1]%nat); [by repeat constructor|].
    intros i Hi. simpl in Hi.
    destruct i as [|[|[|i]]]; [| | |lia];
      in_list.
Defined.

(** *** Which pool runs the calls of [main] *)

Lemma default_max_workers_ge cpu_count : (5 <= default_max_workers cpu_count)%nat.
Proof. unfold default_max_workers. destruct cpu_count as [[|c]|]; lia. Qed.

(** A pool with a worker for each of its jobs runs them all at once. *)
Lemma in_flight_wide cpu_count p earlier q :
  (forall j, j ∈ q -> job_pool j = p) ->
  (length earlier + length q <= workers cpu_count p)%nat ->
  in_flight_from cpu_count earlier q = q.
Proof.
  revert earlier. induction q as [|j q IH]; intros earlier Hp Hw; simpl; [done|].
  rewrite (Hp j) by apply list_elem_of_here.
  pose proof (length_filter (fun j' => job_pool j' = p) earlier) as Hf.
  simpl in Hw. rewrite (proj2 (Nat.ltb_lt _ _)) by lia. simpl. f_equal.
  apply IH.
  - intros j' Hj'. apply Hp. by apply list_elem_of_further.
  - rewrite length_app. simpl. lia.
Qed.

(** Such a pool can finish its jobs in any order. *)
Lemma admissible_wide cpu_count p order q :
  (forall j, j ∈ q -> job_pool j = p) ->
  (length q <= workers cpu_count p)%nat ->
  NoDup order ->
  (forall fut, fut ∈ order -> fut ∈ job_future <$> q) ->
  admissible cpu_count q order = true.
Proof.
  revert q. induction order as [|fut order IH]; intros q Hp Hw Hnd Hin; simpl; [done|].
  apply list.NoDup_cons in Hnd as [Hfresh Hnd].
  unfold in_flight. rewrite (in_flight_wide cpu_count p [] q Hp) by (simpl; lia).
  rewrite bool_decide_eq_true_2 by (apply Hin, list_elem_of_here). simpl.
  destruct (take_job fut q) as [[j q']|] eqn:Htake.
  - apply take_job_Some in Htake as (Hj & q1 & q2 & -> & -> & Hq1).
    apply IH; [| |done|].
    + intros j' Hj'. apply Hp. rewrite elem_of_app, elem_of_cons.
      apply elem_of_app in Hj'. tauto.
    + rewrite length_app in *. simpl in Hw. lia.
    + intros fut' Hfut'.
      assert (fut' ∈ job_future <$> (q1 ++ j :: q2)) as Hold
        by (by apply Hin, list_elem_of_further).
      rewrite fmap_app, fmap_cons, elem_of_app, elem_of_cons in Hold.
      rewrite fmap_app, elem_of_app.
      destruct Hold as [?|[->|?]]; [by left | | by right].
      rewrite Hj in Hfut'. done.
  - assert (fut ∈ job_future <$> q) as Hfut by apply Hin, list_elem_of_here.
    apply list_elem_of_fmap in Hfut as (j & -> & Hj).
    by destruct (proj1 (take_job_None _ _) Htake j Hj).
Qed.

(** A pool with one worker finishes its jobs in the order of
    submission. *)
Lemma admissible_single_worker cpu_count p order q :
  (forall j, j ∈ q -> job_pool j = p) ->
  workers cpu_count p = 1%nat ->
  admissible cpu_count q order = true ->
  order `prefix_of` (job_future <$> q).
Proof.
  revert q. induction order as [|fut order IH]; intros q Hp Hw; simpl.
  - intros _. apply prefix_nil.
  - destruct q as [|j q]; [done|].
    unfold in_flight. simpl. rewrite (Hp j) by apply list_elem_of_here.
    rewrite Hw. simpl.
    assert (in_flight_from cpu_count [j] q = []) as ->.
    { assert (forall earlier, j ∈ earlier -> (forall j', j' ∈ q -> job_pool j' = p) ->
                              in_flight_from cpu_count earlier q = []) as Hrest.
      { clear IH. induction q as [|j1 q IHq]; intros earlier Hj Hq; simpl; [done|].
        rewrite (Hq j1) by apply list_elem_of_here. rewrite Hw.
        assert (j ∈ filter (fun j' => job_pool j' = p) earlier) as Hjf.
        { apply list_elem_of_filter. split; [|done]. apply Hp, list_elem_of_here. }
        destruct (filter (fun j' => job_pool j' = p) earlier) as [|? l] eqn:Hfl;
          [by apply elem_of_nil in Hjf|].
        simpl. apply IHq.
        - intros j' Hj'. apply Hp. apply elem_of_cons in Hj' as [->|Hj'].
          + apply list_elem_of_here.
          + by do 2 apply list_elem_of_further.
        - apply elem_of_app. by left.
        - intros j' Hj'. apply Hq. by apply list_elem_of_further. }
      apply Hrest; [apply list_elem_of_here|].
      intros j' Hj'. apply Hp. by apply list_elem_of_further. }
    intros [Hfut Hrest]%andb_prop.
    apply bool_decide_eq_true in Hfut. apply list_elem_of_singleton in Hfut as ->.
    rewrite Nat.eqb_refl in Hrest. apply prefix_cons. apply IH; [|done|done].
    intros j' Hj'. apply Hp. by apply list_elem_of_further.
Qed.

Lemma start_main id :
  work (start main (new_event_loop id)).2 =
  (fun fut => {| job_future := fut; job_pool := DefaultExecutor;
                 job_func := partial api_func_def [] [] |}) <$> [0; 1; 2; 3]%nat.
Proof.
  rewrite main_unfold. unfold main_with.
  rewrite start_gather, start_all_calls, gather_status_slots. reflexivity.
Qed.

(** C3.  The four calls of [main] go to the default pool of the loop:
    [call_api_func] passes no [executor], so [run] is entered with
    [executor=None], and the pool bound to [_executor] gets no job.  The
    default pool has a worker for each of them, so all four run at once
    and may finish in any order. *)
Theorem main_runs_on_default_executor id cpu_count :
  let st := (start main (new_event_loop id)).2 in
  call_api_func = bind (run api_func_def [] PNone PNone []) (fun result => Return result) /\
  job_pool <$> work st
    = [DefaultExecutor; DefaultExecutor; DefaultExecutor; DefaultExecutor] /\
  filter (fun j => job_pool j = UserExecutor _executor) (work st) = [] /\
  in_flight cpu_count (work st) = work st /\
  (forall order,
     NoDup order -> (forall fut, fut ∈ order -> (fut < 4)%nat) ->
     admissible cpu_count (work st) order = true).
Proof.
  pose proof (default_max_workers_ge cpu_count) as Hw.
  cbn zeta. rewrite start_main.
  assert (forall j, j ∈ (fun fut => {| job_future := fut; job_pool := DefaultExecutor;
                                       job_func := partial api_func_def [] [] |})
                          <$> [0; 1; 2; 3]%nat ->
                    job_pool j = DefaultExecutor) as Hpool.
  { intros j (fut & -> & _)%list_elem_of_fmap. done. }
  split; [done|]. split; [done|]. split; [done|]. split.
  - apply (in_flight_wide cpu_count DefaultExecutor); [done|].
    unfold workers. rewrite length_fmap. cbn [length]. lia.
  - intros order Hnd Hlt.
    apply (admissible_wide cpu_count DefaultExecutor); [done| |done|].
    + unfold workers. rewrite length_fmap. cbn [length]. lia.
    + intros fut Hfut. specialize (Hlt fut Hfut). cbn.
      destruct fut as [|[|[|[|fut]]]]; [| | | |lia]; in_list.
Qed.

(** Had the calls been given [_executor], its single worker would have
    run them one after the other. *)
Lemma single_worker_serializes cpu_count order q :
  (forall j, j ∈ q -> job_pool j = UserExecutor _executor) ->
  admissible cpu_count q order = true ->
  order `prefix_of` (job_future <$> q).
Proof. intros Hq. by apply admissible_single_worker with (p := UserExecutor _executor). Qed.

(** *** Exceptions *)

(** [run] on a loop and an executor it can use: one job is submitted, to
    the pool that [executor] names, and the coroutine waits for it. *)
Lemma start_run func args loop exv kwargs st ex :
  own_loop st loop = true ->
  as_executor exv = Some ex ->
  start (run func args loop exv kwargs) st =
  (WaitFuture (next_future st) Return, submit ex (partial func args kwargs) st).
Proof.
  intros Hloop Hex. unfold run.
  destruct loop; try done; destruct exv; try done; cbn in Hex, Hloop |- *;
    injection Hex as <-; rewrite ?Nat.eqb_refl, ?Hloop; reflexivity.
Qed.

Lemma submitted_job_found ex pfunc st :
  idle_tasks st ->
  take_job (next_future st) (work (submit ex pfunc st)) =
  Some ({| job_future := next_future st; job_pool := pool_of ex; job_func := pfunc |},
        work st).
Proof.
  intros [_ Hold]. cbn [submit work]. apply take_job_snoc; [|done].
  intros j1 Hj1. specialize (Hold j1 Hj1). lia.
Qed.






(** ** Exceptions in the cells *)








(** * Further properties of the cells *)

(** ** The bucket loop *)

Lemma for_each_invariant_any {A} (P : kernel -> Prop) (xs : list A)
    (body : A -> cell unit) k r k' :
  (forall x k1 r1 k2, x ∈ xs -> P k1 -> body x k1 = (r1, k2) -> P k2) ->
  P k -> for_each xs body k = (r, k') -> P k'.
Proof.
  revert k; induction xs as [|x xs IH]; intros k Hstep HP; simpl.
  - by intros [= _ <-].
  - unfold mbind, cell_bind. destruct (body x k) as [[[]|e] k1] eqn:Hx.
    + apply (IH k1).
      * intros y ka ra kb Hy. apply Hstep. by apply list_elem_of_further.
      * apply (Hstep x k (Ok ()) k1); [apply list_elem_of_here | done | done].
    + intros [= _ <-]. apply (Hstep x k (Raise e) k1); [apply list_elem_of_here | done | done].
Qed.

(** Whatever its outcome, the cell leaves the kernel the loop left. *)
Lemma cell_2_loop w k0 r k :
  cell_2 w k0 = (r, k) ->
  exists r', for_each (objects_all w).1 (loop_body w) (fresh k0) = (r', k).
Proof.
  unfold cell_2, mbind, cell_bind, assign_all_data. fold (fresh k0).
  destruct (for_each (objects_all w).1 (loop_body w) (fresh k0)) as [[[]|e] k1].
  - destruct (objects_all w).2; intros [= _ <-]; eauto.
  - intros [= _ <-]. eauto.
Qed.

(** What a turn of the loop does to the kernel, whatever its outcome: a
    key without ['video_data.json'] changes nothing; otherwise at most the
    temporary file is written and one entry is stored, a float under the
    logical path of the key. *)
Lemma loop_body_effect w key k r k' :
  loop_body w key k = (r, k') ->
  queries k' = queries k /\
  (forall path, path <> "tmp_data.json" -> files k' !! path = files k !! path) /\
  (all_data k' = all_data k \/
   contains "video_data.json" key = true /\
   exists q, all_data k' = dict_set (vid_path_of key) (PFloat q) (all_data k)).
Proof.
  unfold loop_body. destruct (contains "video_data.json" key) eqn:Hc.
  - unfold mbind, cell_bind, lift, write_file, open_read, store_all_data; simpl.
    destruct (download_file w key) as [body|]; [|intros [= _ <-]; auto].
    rewrite lookup_insert_eq.
    assert (forall path, path <> "tmp_data.json" ->
              <["tmp_data.json" := body]> (files k) !! path = files k !! path) as Hfiles
      by (intros path Hne; by rewrite lookup_insert_ne).
    destruct (json_load w body) as [vid_data|]; [|intros [= _ <-]; auto].
    destruct (vid_len_of vid_data) as [len|] eqn:Hlen; [|intros [= _ <-]; auto].
    apply vid_len_of_spec in Hlen as (t & q & _ & _ & _ & ->).
    intros [= _ <-]. simpl. split; [done|]. split; [done|]. right. eauto.
  - intros [= _ <-]. auto.
Qed.

Lemma split_parts_no_sep (sep : ascii) (s : string) :
  Forall (fun p => has_char sep p = false) (split sep s).
Proof.
  induction s as [|c s IH]; simpl; [by repeat constructor|].
  destruct (Ascii.eqb c sep) eqn:E; [by constructor|].
  destruct (split sep s) as [|p ps].
  - constructor; [simpl; by rewrite E | constructor].
  - inversion IH as [|? ? Hp Hps]; subst. constructor; [|done]. simpl. by rewrite E.
Qed.

Lemma append_assoc (a b c : string) : (a +:+ b) +:+ c = a +:+ b +:+ c.
Proof. induction a as [|x a IH]; [done|]. by rewrite !append_cons, IH. Qed.

Lemma join_snoc (sep : string) (l : list string) (x : string) :
  l <> [] -> join sep (l ++ [x]) = join sep l +:+ sep +:+ x.
Proof.
  unfold join. induction l as [|y l IH]; [done|]. intros _.
  destruct l as [|z l]; [done|].
  change (String.concat sep ((y :: z :: l) ++ [x]))
    with (y +:+ sep +:+ String.concat sep ((z :: l) ++ [x])).
  rewrite IH by done.
  change (String.concat sep (y :: z :: l)) with (y +:+ sep +:+ String.concat sep (z :: l)).
  by rewrite !append_assoc.
Qed.

Lemma snoc_decompose {A} (l : list A) : l <> [] -> exists init x, l = init ++ [x].
Proof. destruct l as [|y l] using rev_ind; [done | eauto]. Qed.

(** X1.  A key with a ['/'] is its logical video path, a ['/'], and a last
    component without ['/']; a key without ['/'] has the empty path, so all
    objects at the root of the bucket share one entry of [all_data]. *)
Theorem vid_path_round_trip (key : string) :
  (has_char "/"%char key = false -> vid_path_of key = "") /\
  (has_char "/"%char key = true ->
     exists base, has_char "/"%char base = false /\
                  key = vid_path_of key +:+ "/" +:+ base).
Proof.
  split; [apply vid_path_of_flat|].
  intros Hslash. unfold vid_path_of.
  destruct (snoc_decompose _ (split_not_nil "/"%char key)) as (init & base & Hsplit).
  pose proof (split_parts_no_sep "/"%char key) as Hparts.
  pose proof (join_split "/"%char key) as Hjoin.
  rewrite Hsplit in *.
  rewrite Forall_app, Forall_singleton in Hparts. destruct Hparts as [_ Hbase].
  rewrite drop_last_snoc. exists base. split; [done|].
  destruct init as [|q init].
  - unfold join in Hjoin. simpl in Hjoin. congruence.
  - by rewrite <- Hjoin at 1; rewrite join_snoc.
Qed.

Lemma vid_path_round_trip_witness :
  vid_path_of "video_data.json" = "" /\
  exists base, has_char "/"%char base = false /\
    "data/videos/17/UC1VU/a/video_data.json"
      = vid_path_of "data/videos/17/UC1VU/a/video_data.json" +:+ "/" +:+ base.
Proof.
  split.
  - exact (proj1 (vid_path_round_trip "video_data.json") eq_refl).
  - exact (proj2 (vid_path_round_trip "data/videos/17/UC1VU/a/video_data.json") eq_refl).
Defined.

Lemma dict_set_elem {V} (key : string) (v : V) d p x :
  (p, x) ∈ dict_set key v d -> (p, x) = (key, v) \/ (p, x) ∈ d.
Proof.
  induction d as [|[k1 v1] d IH]; simpl.
  - intros ->%list_elem_of_singleton. by left.
  - destruct (String.eqb_spec key k1) as [->|].
    + rewrite !elem_of_cons. tauto.
    + rewrite !elem_of_cons. intros [?|?]; [tauto|]. destruct IH; tauto.
Qed.

(** X2.  Whether the cell ends well or raises, every entry of [all_data]
    comes from an object of the listing whose key has ['video_data.json'] in
    it: its key is the logical path of that object and its value is a
    float.  Nothing left from an earlier run, and no other kind of value,
    gets into the frame built from it. *)
Theorem all_data_from_listing w k0 r k p v :
  cell_2 w k0 = (r, k) ->
  (p, v) ∈ all_data k ->
  (exists key, key ∈ (objects_all w).1 /\ contains "video_data.json" key = true /\
               vid_path_of key = p) /\
  exists q, v = PFloat q.
Proof.
  intros [r' Hloop]%cell_2_loop. revert p v.
  apply (for_each_invariant_any
           (fun k1 => forall p v, (p, v) ∈ all_data k1 ->
              (exists key, key ∈ (objects_all w).1 /\
                           contains "video_data.json" key = true /\ vid_path_of key = p) /\
              exists q, v = PFloat q)
           (objects_all w).1 (loop_body w) (fresh k0) r' k); [| |done].
  - intros key k1 r1 k2 Hkey IH Hbody p v Hin.
    destruct (loop_body_effect w key k1 r1 k2 Hbody) as (_ & _ & [Hsame|(Hc & q & Hset)]).
    + rewrite Hsame in Hin. by apply IH.
    + rewrite Hset in Hin. apply dict_set_elem in Hin as [[= -> ->]|Hin]; [|by apply IH].
      split; [by exists key | by exists q].
  - intros p v Hin. by apply elem_of_nil in Hin.
Qed.

Lemma all_data_from_listing_witness :
  let k := (cell_2 failing_world {| files := ∅; all_data := [("stale", PInt 1)];
                                    queries := [] |}).2 in
  (exists key, key ∈ (objects_all failing_world).1 /\
               contains "video_data.json" key = true /\
               vid_path_of key = "data/videos/17/UC1VU/a") /\
  exists q, PFloat (Q2Qc (inject_Z 507000) / Q2Qc (inject_Z 1000))%Qc = PFloat q.
Proof.
  intros k.
  apply (all_data_from_listing failing_world
           {| files := ∅; all_data := [("stale", PInt 1)]; queries := [] |}
           (Raise (OtherError "ClientError")) k).
  - vm_compute. reflexivity.
  - vm_compute. apply list_elem_of_here.
Defined.

Lemma dict_set_fst {V} (key : string) (v : V) d :
  (dict_set key v d).*1 = if bool_decide (key ∈ d.*1) then d.*1 else d.*1 ++ [key].
Proof.
  induction d as [|[k1 v1] d IH]; [done|]. cbn [dict_set].
  destruct (String.eqb_spec key k1) as [->|Hne]; rewrite !fmap_cons; cbn [fst].
  - rewrite bool_decide_eq_true_2 by apply list_elem_of_here. done.
  - rewrite IH. destruct (bool_decide (key ∈ d.*1)) eqn:Hd.
    + apply bool_decide_eq_true in Hd.
      rewrite bool_decide_eq_true_2 by (by apply list_elem_of_further). done.
    + apply bool_decide_eq_false in Hd.
      rewrite bool_decide_eq_false_2; [done|].
      intros [?|?]%elem_of_cons; done.
Qed.

Lemma for_each_keys w keys k k' :
  for_each keys (loop_body w) k = (Ok (), k') ->
  (all_data k').*1 =
  fold_left (fun acc p => if bool_decide (p ∈ acc) then acc else acc ++ [p])
    (vid_path_of <$> processed keys) (all_data k).*1.
Proof.
  revert k. induction keys as [|key keys IH]; intros k; simpl.
  - by intros [= <-].
  - intros ([] & k1 & Hkey & Hrest)%cell_bind_ok. rewrite (IH k1 Hrest).
    unfold processed. destruct (contains "video_data.json" key) eqn:Hc.
    + rewrite filter_cons_True by done. simpl.
      apply loop_body_ok in Hkey as (body & vid_data & len & _ & _ & _ & ->); [|done].
      simpl. by rewrite dict_set_fst.
    + rewrite filter_cons_False by (by rewrite Hc).
      rewrite loop_body_skip in Hkey by done. by injection Hkey as <-.
Qed.

(** X3.  After the loop the keys of [all_data], hence the rows of the
    frame built from it, are the logical paths of the processed objects,
    each once, in the order in which the listing first shows them. *)
Theorem all_data_keys_in_listing_order w k0 k :
  cell_2 w k0 = (Ok (), k) ->
  (all_data k).*1 = first_occurrences (vid_path_of <$> processed (objects_all w).1) /\
  forall df k', cell_3 k = (Ok df, k') ->
    (fun r => cell_at r 0) <$> rows df
      = PStr <$> first_occurrences (vid_path_of <$> processed (objects_all w).1).
Proof.
  intros Hrun%cell_2_ok. apply for_each_keys in Hrun. simpl in Hrun.
  split; [done|]. intros df k' [= <- <-]. simpl.
  rewrite <- list_fmap_compose.
  change ((fun r => cell_at r 0) ∘ (fun kv : string * pyval => [PStr kv.1; kv.2]))
    with (PStr ∘ (fst : string * pyval -> string)).
  by rewrite list_fmap_compose, Hrun.
Qed.

Lemma all_data_keys_in_listing_order_witness :
  let k := (cell_2 example_world empty_kernel).2 in
  cell_2 example_world empty_kernel = (Ok (), k) /\
  (all_data k).*1 = ["data/videos/17/UC1VU/a"; "data/videos/24/UCxOz/b"].
Proof.
  intros k.
  assert (H : cell_2 example_world empty_kernel = (Ok (), k)) by (vm_compute; reflexivity).
  split; [done|].
  exact (proj1 (all_data_keys_in_listing_order example_world empty_kernel k H)).
Defined.

(** A turn of the loop reads only what it has just written. *)
Lemma loop_body_same w key k k' :
  all_data k = all_data k' ->
  (loop_body w key k).1 = (loop_body w key k').1 /\
  all_data (loop_body w key k).2 = all_data (loop_body w key k').2.
Proof.
  intros Hsame. unfold loop_body. destruct (contains "video_data.json" key); [|done].
  unfold mbind, cell_bind, lift, write_file, open_read, store_all_data; simpl.
  destruct (download_file w key) as [body|]; [|done].
  rewrite !lookup_insert_eq.
  destruct (json_load w body) as [vid_data|]; [|done].
  destruct (vid_len_of vid_data) as [len|]; [|done].
  simpl. by rewrite Hsame.
Qed.

Lemma for_each_same w keys k k' :
  all_data k = all_data k' ->
  (for_each keys (loop_body w) k).1 = (for_each keys (loop_body w) k').1 /\
  all_data (for_each keys (loop_body w) k).2 = all_data (for_each keys (loop_body w) k').2.
Proof.
  revert k k'. induction keys as [|key keys IH]; intros k k' Hsame; simpl; [done|].
  destruct (loop_body_same w key k k' Hsame) as [Hr Hd].
  unfold mbind, cell_bind.
  destruct (loop_body w key k) as [[[]|e] k1], (loop_body w key k') as [[[]|e'] k1'];
    simpl in *; try done.
  by apply IH.
Qed.

(** X4.  The cell starts from an empty [all_data] and overwrites the
    temporary file before reading it, so what it raises or returns and the
    [all_data] it leaves are the same whatever the kernel held before:
    running the cell again does not add to the entries of an earlier run. *)
Theorem cell_2_forgets_earlier_runs w k0 k0' :
  (cell_2 w k0).1 = (cell_2 w k0').1 /\
  all_data (cell_2 w k0).2 = all_data (cell_2 w k0').2.
Proof.
  unfold cell_2, mbind, cell_bind, assign_all_data. fold (fresh k0) (fresh k0').
  destruct (for_each_same w (objects_all w).1 (fresh k0) (fresh k0') eq_refl) as [Hr Hd].
  destruct (for_each (objects_all w).1 (loop_body w) (fresh k0)) as [[[]|e] k1],
           (for_each (objects_all w).1 (loop_body w) (fresh k0')) as [[[]|e'] k1'];
    simpl in *; try done.
  destruct (objects_all w).2; done.
Qed.

Lemma for_each_last_file w k k' key post body :
  for_each (key :: post) (loop_body w) k = (Ok (), k') ->
  contains "video_data.json" key = true ->
  processed post = [] ->
  download_file w key = Ok body ->
  files k' !! "tmp_data.json" = Some body.
Proof.
  simpl. intros ([] & k1 & Hkey & Hpost)%cell_bind_ok Hc Hnone Hbody.
  apply loop_body_ok in Hkey as (body' & vid_data & len & Hd & _ & _ & ->); [|done].
  assert (body' = body) as -> by congruence.
  apply (for_each_invariant
           (fun k2 => files k2 !! "tmp_data.json" = Some body) post (loop_body w)
           (stored key body len k) k'); [| |done].
  - intros x ka kb Hx Hka Hrun.
    assert (contains "video_data.json" x = false) as Hskip.
    { destruct (contains "video_data.json" x) eqn:Hcx; [|done].
      assert (x ∈ processed post) as Hin by (by apply list_elem_of_filter).
      rewrite Hnone in Hin. by apply elem_of_nil in Hin. }
    rewrite loop_body_skip in Hrun by done. by injection Hrun as <-.
  - simpl. apply lookup_insert_eq.
Qed.

(** X5.  The cell writes no file but [tmp_data.json], whatever its
    outcome, and it does not remove that file: after a run that ends well
    it holds the body of the last processed object of the listing. *)
Theorem cell_2_files w k0 r k :
  cell_2 w k0 = (r, k) ->
  (forall path, path <> "tmp_data.json" -> files k !! path = files k0 !! path) /\
  (forall pre key post body,
     r = Ok () ->
     (objects_all w).1 = pre ++ key :: post ->
     contains "video_data.json" key = true ->
     processed post = [] ->
     download_file w key = Ok body ->
     files k !! "tmp_data.json" = Some body).
Proof.
  intros Hcell. split.
  - destruct (cell_2_loop w k0 r k Hcell) as [r' Hloop].
    apply (for_each_invariant_any
             (fun k1 => forall path, path <> "tmp_data.json" ->
                                     files k1 !! path = files k0 !! path)
             (objects_all w).1 (loop_body w) (fresh k0) r' k); [|done|done].
    intros key k1 r1 k2 _ IH Hbody path Hne.
    destruct (loop_body_effect w key k1 r1 k2 Hbody) as (_ & Hfiles & _).
    rewrite Hfiles by done. by apply IH.
  - intros pre key post body -> Hkeys Hc Hnone Hbody.
    apply cell_2_ok in Hcell. rewrite Hkeys, for_each_app in Hcell.
    destruct (for_each pre (loop_body w) (fresh k0)) as [[[]|e] k1]; [|done].
    by apply (for_each_last_file w k1 k key post body).
Qed.

Lemma cell_2_files_witness :
  let k0 := {| files := {[ "notes.txt" := "keep" ]}; all_data := []; queries := [] |} in
  let k := (cell_2 example_world k0).2 in
  cell_2 example_world k0 = (Ok (), k) /\
  files k !! "notes.txt" = Some "keep" /\
  files k !! "tmp_data.json" = Some "data/videos/17/UC1VU/a/video_data.json.bak".
Proof.
  intros k0 k.
  assert (H : cell_2 example_world k0 = (Ok (), k)) by (vm_compute; reflexivity).
  destruct (cell_2_files example_world k0 (Ok ()) k H) as [Hother Hlast].
  split; [done|]. split.
  - rewrite Hother by done. reflexivity.
  - apply (Hlast ["data/videos/17/UC1VU/a/video_data.json";
                  "data/videos/17/UC1VU/a/thumbnail.jpg";
                  "data/videos/24/UCxOz/b/video_data.json"]
                 "data/videos/17/UC1VU/a/video_data.json.bak" []); reflexivity.
Defined.

(** ** The query and the join *)

Lemma cell_2_queries w k0 r k : cell_2 w k0 = (r, k) -> queries k = queries k0.
Proof.
  intros [r' Hloop]%cell_2_loop.
  apply (for_each_invariant_any (fun k1 => queries k1 = queries k0)
           (objects_all w).1 (loop_body w) (fresh k0) r' k); [|done|done].
  intros key k1 r1 k2 _ IH Hbody.
  destruct (loop_body_effect w key k1 r1 k2 Hbody) as (Hq & _). congruence.
Qed.

Lemma cell_7_queries w k :
  queries (cell_7 w k).2 =
  match connect w with
  | Some _ => queries k
  | None => queries k ++ ["SELECT * FROM autoshorts.videos"]
  end.
Proof.
  unfold cell_7. destruct (connect w); [done|].
  unfold mbind, cell_bind, lift, log_query.
  destruct (execute w sql) as [res|]; [|done].
  by destruct (select_columns ["s3_path"; "category_id"] res).
Qed.

(** X6.  The notebook sends at most one statement to the database, the
    [SELECT *] on the videos table, and sends it only when the bucket loop
    has ended well and the connection has opened: after a failure of the
    loop or of the connection nothing has been sent, and a failure of the
    query or of the column selection comes after it was sent. *)
Theorem notebook_queries w k0 :
  queries (notebook w k0).2 =
  match (cell_2 w k0).1, connect w with
  | Ok _, None => queries k0 ++ ["SELECT * FROM autoshorts.videos"]
  | _, _ => queries k0
  end.
Proof.
  unfold notebook, mbind at 1, cell_bind at 1.
  destruct (cell_2 w k0) as [[[]|e] k1] eqn:H2; simpl.
  - pose proof (cell_2_queries w k0 _ k1 H2) as Hq1.
    unfold mbind at 1, cell_bind at 1, cell_3.
    pose proof (cell_7_queries w k1) as Hq7.
    unfold mbind, cell_bind.
    destruct (cell_7 w k1) as [[df_vids|e] k2]; simpl in *.
    + unfold cell_8, lift.
      destruct (merge (DataFrame (all_data k1) ["s3_path"; "vid_len"]) df_vids "s3_path");
        simpl; rewrite Hq7, Hq1; by destruct (connect w).
    + rewrite Hq7, Hq1. by destruct (connect w).
  - apply (cell_2_queries w k0 _ k1 H2).
Qed.

Lemma column_index_None (name : string) (cols : list string) :
  column_index name cols = None <-> name ∉ cols.
Proof.
  induction cols as [|c cols IH]; simpl.
  - split; [intros _ H; by apply elem_of_nil in H | done].
  - destruct (String.eqb_spec name c) as [->|Hne].
    + split; [done|]. intros H. destruct H. apply list_elem_of_here.
    + rewrite not_elem_of_cons. destruct (column_index name cols); simpl.
      * split; [done|]. intros [_ H]. by apply IH in H.
      * split; [|done]. intros _. split; [done|]. by apply IH.
Qed.

Lemma column_index_lt (name : string) (cols : list string) i :
  column_index name cols = Some i -> cols !! i = Some name.
Proof.
  revert i. induction cols as [|c cols IH]; intros i; simpl; [done|].
  destruct (String.eqb_spec name c) as [->|Hne]; [by intros [= <-]|].
  destruct (column_index name cols) as [j|]; simpl; [|done].
  intros [= <-]. by apply IH.
Qed.

(** The column positions [select_columns] asks for. *)
Lemma indices_of_columns (names cols : list string) :
  (Forall (fun n => n ∈ cols) names ->
   exists idx,
     mapM (fun n => match column_index n cols with
                    | Some i => Ok i
                    | None => Raise (KeyError n)
                    end) names = Ok idx /\
     Forall2 (fun n i => cols !! i = Some n) names idx) /\
  (forall pre n post,
     names = pre ++ n :: post -> Forall (fun m => m ∈ cols) pre -> n ∉ cols ->
     mapM (fun n => match column_index n cols with
                    | Some i => Ok i
                    | None => Raise (KeyError n)
                    end) names = Raise (KeyError n)).
Proof.
  split.
  - induction names as [|n names IH]; intros Hall.
    + exists []. split; [done | constructor].
    + inversion Hall as [|? ? Hn Hall']; subst.
      destruct (IH Hall') as (idx & Hidx & Hpos).
      destruct (column_index n cols) as [i|] eqn:Hi;
        [|by apply column_index_None in Hi].
      exists (i :: idx). split.
      * cbn [mapM]. rewrite Hi. cbn. rewrite Hidx. done.
      * constructor; [by apply column_index_lt | done].
  - intros pre n post -> Hpre Hn. induction Hpre as [|m pre Hm _ IH]; cbn [app mapM].
    + apply column_index_None in Hn. by rewrite Hn.
    + destruct (column_index m cols) as [i|] eqn:Hi;
        [|by apply column_index_None in Hi].
      cbn. by rewrite IH.
Qed.

(** X7.  Selecting columns by name succeeds exactly when the frame has
    them all.  The result then has the names asked for as its columns, in
    that order, and a row for each row of the frame, holding the cells of
    those columns.  Otherwise it raises [KeyError] for the first name that
    is missing; so the notebook stops there when the videos table has no
    [s3_path] or no [category_id] column. *)
Theorem select_columns_spec (names : list string) (f : frame) :
  (Forall (fun n => n ∈ columns f) names ->
   exists idx,
     Forall2 (fun n i => columns f !! i = Some n) names idx /\
     select_columns names f
       = Ok {| columns := names; rows := (fun r => cell_at r <$> idx) <$> rows f |}) /\
  (forall pre n post,
     names = pre ++ n :: post -> Forall (fun m => m ∈ columns f) pre -> n ∉ columns f ->
     select_columns names f = Raise (KeyError n)).
Proof.
  destruct (indices_of_columns names (columns f)) as [Hok Hmissing]. split.
  - intros Hall. destruct (Hok Hall) as (idx & Hidx & Hpos).
    exists idx. split; [done|]. unfold select_columns. by rewrite Hidx.
  - intros pre n post Hnames Hpre Hn. unfold select_columns.
    by rewrite (Hmissing pre n post Hnames Hpre Hn).
Qed.

Lemma select_columns_spec_witness :
  let f := {| columns := ["video_id"; "s3_path"; "title"];
              rows := [[PStr "-reCVT"; PStr "data/videos/17/UC1VU/a"; PStr "t"]] |} in
  select_columns ["s3_path"; "category_id"] f = Raise (KeyError "category_id") /\
  exists idx,
    Forall2 (fun n i => columns f !! i = Some n) ["s3_path"; "video_id"] idx /\
    select_columns ["s3_path"; "video_id"] f
      = Ok {| columns := ["s3_path"; "video_id"];
              rows := (fun r => cell_at r <$> idx) <$> rows f |}.
Proof.
  intros f. split.
  - apply (proj2 (select_columns_spec ["s3_path"; "category_id"] f)
             ["s3_path"] "category_id" []); [done| |].
    + constructor; [in_list | constructor].
    + intros Hin. repeat (apply elem_of_cons in Hin as [?|Hin]; [done|]).
      by apply elem_of_nil in Hin.
  - apply (proj1 (select_columns_spec ["s3_path"; "video_id"] f)).
    constructor; [in_list|]. constructor; [in_list | constructor].
Defined.

Lemma key_eq_is_path (p : string) (v : pyval) : key_eq (PStr p) v = is_path p v.
Proof. by destruct v. Qed.

Lemma bind_filter_rows (p : string) (len : pyval) (i_path i_cat : nat) (l : list (list pyval)) :
  ((fun r => cell_at r <$> [i_path; i_cat]) <$> l) ≫=
    (fun r => if key_eq (cell_at [PStr p; len] 0) (cell_at r 0)
              then [[PStr p; len] ++ delete 0%nat r] else [])
  = filter (fun dbrow => is_path p (cell_at dbrow i_path) = true) l ≫=
      (fun dbrow => [[PStr p; len; cell_at dbrow i_cat]]).
Proof.
  induction l as [|dbrow l IH]; [done|].
  rewrite fmap_cons. cbn [mbind list_bind]. fold (@mbind list _).
  change (cell_at [PStr p; len] 0) with (PStr p) in *.
  change (cell_at (cell_at dbrow <$> [i_path; i_cat]) 0) with (cell_at dbrow i_path).
  rewrite key_eq_is_path.
  destruct (is_path p (cell_at dbrow i_path)) eqn:Hp.
  - rewrite filter_cons_True by done. cbn [mbind list_bind]. f_equal. apply IH.
  - rewrite filter_cons_False by (by rewrite Hp). apply IH.
Qed.

Lemma merge_notebook_rows items res i_path i_cat :
  merge (DataFrame items ["s3_path"; "vid_len"])
        {| columns := ["s3_path"; "category_id"];
           rows := (fun r => cell_at r <$> [i_path; i_cat]) <$> rows res |} "s3_path"
  = Ok {| columns := ["s3_path"; "vid_len"; "category_id"];
          rows := joined_rows items res i_path i_cat |}.
Proof.
  unfold merge, joined_rows. cbn [columns column_index String.eqb rows DataFrame].
  change (column_index "s3_path" ["s3_path"; "vid_len"]) with (Some 0%nat).
  change (column_index "s3_path" ["s3_path"; "category_id"]) with (Some 0%nat).
  cbv iota beta. f_equal. f_equal.
  induction items as [|[p len] items IH]; [done|].
  rewrite fmap_cons. cbn [mbind list_bind]. fold (@mbind list _).
  f_equal; [|apply IH]. apply bind_filter_rows.
Qed.

(** The steps of a run of the notebook that reaches [final_df]. *)
Lemma notebook_ok_steps w k0 final k :
  notebook w k0 = (Ok final, k) ->
  exists k1 res i_path i_cat,
    cell_2 w k0 = (Ok (), k1) /\
    all_data k = all_data k1 /\
    connect w = None /\
    execute w "SELECT * FROM autoshorts.videos" = Ok res /\
    column_index "s3_path" (columns res) = Some i_path /\
    column_index "category_id" (columns res) = Some i_cat /\
    final = {| columns := ["s3_path"; "vid_len"; "category_id"];
               rows := joined_rows (all_data k1) res i_path i_cat |}.
Proof.
  unfold notebook. intros H.
  apply cell_bind_ok in H as ([] & k1 & H2 & H).
  apply cell_bind_ok in H as (df & k2 & [= <- <-] & H).
  apply cell_bind_ok in H as (df_vids & k3 & H7 & H8).
  unfold cell_7 in H7. destruct (connect w) eqn:Hconn; [done|].
  apply cell_bind_ok in H7 as ([] & k4 & [= <-] & H7).
  apply cell_bind_ok in H7 as (res & k5 & Hex & Hsel).
  unfold lift in Hex, Hsel.
  apply pair_equal_spec in Hsel as [Hsel <-]. apply pair_equal_spec in Hex as [Hex <-].
  unfold select_columns in Hsel. cbn [mapM] in Hsel.
  destruct (column_index "s3_path" (columns res)) as [i_path|] eqn:Hip; [|done].
  destruct (column_index "category_id" (columns res)) as [i_cat|] eqn:Hic; [|done].
  cbn [mbind result_bind mret result_ret columns] in Hsel.
  assert (Hvids : df_vids =
            {| columns := ["s3_path"; "category_id"];
               rows := (fun r => cell_at r <$> [i_path; i_cat]) <$> rows res |})
    by congruence.
  subst df_vids. clear Hsel.
  unfold cell_8, lift in H8. apply pair_equal_spec in H8 as [H8 <-].
  rewrite merge_notebook_rows in H8.
  assert (Hfinal : final =
            {| columns := ["s3_path"; "vid_len"; "category_id"];
               rows := joined_rows (all_data k1) res i_path i_cat |})
    by congruence.
  exists k1, res, i_path, i_cat. by repeat split.
Qed.

(** X8.  [final_df] is the inner join written out: for each path of
    [all_data], in the order of [all_data], and for each row of the answer
    of the database whose [s3_path] is that path, in the order of the
    answer, one row with the path, its duration and the [category_id] of
    that row.  A path that the videos table does not have gives no row; a
    path it has twice gives two. *)
Theorem final_df_is_the_inner_join w k0 final k :
  notebook w k0 = (Ok final, k) ->
  exists res i_path i_cat,
    execute w "SELECT * FROM autoshorts.videos" = Ok res /\
    column_index "s3_path" (columns res) = Some i_path /\
    column_index "category_id" (columns res) = Some i_cat /\
    rows final =
      (kv ← all_data k;
       dbrow ← filter (fun dbrow => is_path kv.1 (cell_at dbrow i_path) = true) (rows res);
       [[PStr kv.1; kv.2; cell_at dbrow i_cat]]).
Proof.
  intros (k1 & res & i_path & i_cat & _ & Hdata & _ & Hex & Hip & Hic & ->)%notebook_ok_steps.
  exists res, i_path, i_cat. repeat split; try done.
  cbn [rows]. unfold joined_rows. by rewrite Hdata.
Qed.

Lemma final_df_is_the_inner_join_witness :
  let w := example_world in
  let final := match (notebook w empty_kernel).1 with
               | Ok f => f
               | Raise _ => {| columns := []; rows := [] |}
               end in
  let k := (notebook w empty_kernel).2 in
  notebook w empty_kernel = (Ok final, k) /\
  exists res i_path i_cat,
    execute w "SELECT * FROM autoshorts.videos" = Ok res /\
    column_index "s3_path" (columns res) = Some i_path /\
    column_index "category_id" (columns res) = Some i_cat /\
    rows final =
      (kv ← all_data k;
       dbrow ← filter (fun dbrow => is_path kv.1 (cell_at dbrow i_path) = true) (rows res);
       [[PStr kv.1; kv.2; cell_at dbrow i_cat]]).
Proof.
  intros w final k.
  assert (H : notebook w empty_kernel = (Ok final, k)) by (vm_compute; reflexivity).
  split; [done|].
  exact (final_df_is_the_inner_join w empty_kernel final k H).
Defined.

Lemma joined_block_count (p : string) (kv : string * pyval) (i_cat : nat)
    (l : list (list pyval)) :
  length (filter (fun row => is_path p (cell_at row 0) = true)
            (l ≫= (fun dbrow => [[PStr kv.1; kv.2; cell_at dbrow i_cat]])))
  = if bool_decide (p = kv.1) then length l else 0%nat.
Proof.
  induction l as [|dbrow l IH]; [by case_bool_decide|].
  cbn [mbind list_bind]. fold (@mbind list _).
  cbn [app]. change (cell_at [PStr kv.1; kv.2; cell_at dbrow i_cat] 0) with (PStr kv.1) in *.
  case_bool_decide as Hp.
  - rewrite filter_cons_True by (cbn; by apply String.eqb_eq).
    rewrite !length_cons. by f_equal.
  - rewrite filter_cons_False; [done|].
    cbn. intros Heq%String.eqb_eq. done.
Qed.

Lemma joined_rows_cons kv items res i_path i_cat :
  joined_rows (kv :: items) res i_path i_cat
  = (filter (fun dbrow => is_path kv.1 (cell_at dbrow i_path) = true) (rows res) ≫=
       (fun dbrow => [[PStr kv.1; kv.2; cell_at dbrow i_cat]]))
    ++ joined_rows items res i_path i_cat.
Proof. reflexivity. Qed.

Lemma joined_rows_count (p : string) items res i_path i_cat :
  NoDup items.*1 ->
  length (filter (fun row => is_path p (cell_at row 0) = true)
            (joined_rows items res i_path i_cat))
  = if bool_decide (p ∈ items.*1)
    then length (filter (fun dbrow => is_path p (cell_at dbrow i_path) = true) (rows res))
    else 0%nat.
Proof.
  induction items as [|kv items IH].
  { intros _. rewrite bool_decide_eq_false_2; [done|]. apply not_elem_of_nil. }
  rewrite fmap_cons. intros [Hnotin Hnd]%list.NoDup_cons.
  rewrite joined_rows_cons, list.filter_app, length_app, joined_block_count, (IH Hnd).
  destruct (decide (p = kv.1)) as [->|Hne].
  - rewrite bool_decide_eq_true_2 by done.
    rewrite (bool_decide_eq_false_2 (kv.1 ∈ items.*1)) by done.
    rewrite (bool_decide_eq_true_2 (kv.1 ∈ kv.1 :: items.*1)) by apply list_elem_of_here.
    lia.
  - rewrite (bool_decide_eq_false_2 (p = kv.1)) by done. cbn [Nat.add].
    repeat case_bool_decide; try done.
    + exfalso. apply H0. by apply list_elem_of_further.
    + exfalso. inversion H0; subst; done.
Qed.

(** X9.  In [final_df] a path of [all_data] has as many rows as the answer
    of the database has rows with that [s3_path], and any other path has
    none: a video that the table lists twice is counted twice in the
    statistics of cell 9, a video that it does not list is not counted. *)
Theorem final_df_rows_per_path w k0 final k :
  notebook w k0 = (Ok final, k) ->
  exists res i_path,
    execute w "SELECT * FROM autoshorts.videos" = Ok res /\
    column_index "s3_path" (columns res) = Some i_path /\
    forall p : string,
      length (filter (fun row => is_path p (cell_at row 0) = true) (rows final))
      = if bool_decide (p ∈ (all_data k).*1)
        then length (filter (fun dbrow => is_path p (cell_at dbrow i_path) = true) (rows res))
        else 0%nat.
Proof.
  intros (k1 & res & i_path & i_cat & H2 & Hdata & _ & Hex & Hip & _ & ->)%notebook_ok_steps.
  exists res, i_path. repeat split; try done.
  intros p. cbn [rows]. rewrite Hdata.
  apply joined_rows_count. by apply (all_data_NoDup w k0).
Qed.

Lemma final_df_rows_per_path_witness :
  let w := example_world in
  let final := match (notebook w empty_kernel).1 with
               | Ok f => f
               | Raise _ => {| columns := []; rows := [] |}
               end in
  let k := (notebook w empty_kernel).2 in
  notebook w empty_kernel = (Ok final, k) /\
  exists res i_path,
    execute w "SELECT * FROM autoshorts.videos" = Ok res /\
    column_index "s3_path" (columns res) = Some i_path /\
    forall p : string,
      length (filter (fun row => is_path p (cell_at row 0) = true) (rows final))
      = if bool_decide (p ∈ (all_data k).*1)
        then length (filter (fun dbrow => is_path p (cell_at dbrow i_path) = true) (rows res))
        else 0%nat.
Proof.
  intros w final k.
  assert (H : notebook w empty_kernel = (Ok final, k)) by (vm_compute; reflexivity).
  split; [done|].
  exact (final_df_rows_per_path w empty_kernel final k H).
Defined.

(** ** The wrapper and its keywords *)

(** A task suspended on a future stays suspended as long as the workers
    finish other futures only. *)
Lemma run_tasks_pending order fut k st :
  detached st = [] ->
  fut ∉ order ->
  (run_tasks order (WaitFuture fut k) st).1 = None.
Proof.
  revert st. induction order as [|fut' order IH]; intros st Hdet Hnotin; [done|].
  apply not_elem_of_cons in Hnotin as [Hne Hnotin].
  cbn [run_tasks]. unfold complete.
  destruct (take_job fut' (work st)) as [[j q]|]; [|by apply IH].
  destruct (future_outcome (job_func j ())) as [r|]; [|by apply IH].
  rewrite Hdet. cbn [deliver].
  rewrite (proj2 (Nat.eqb_neq fut fut')) by done.
  cbn. by apply IH.
Qed.

(** X10.  [run] keeps [loop] and [executor] for itself and hands every
    other keyword on: with [loop] absent, [None] or the running loop and
    [executor] absent, [None] or an executor that accepts work, one call
    of the wrapper submits exactly one job, to the pool that [executor]
    names (the default pool of the loop for [None]); the job is the call
    of [func] on the positional arguments and the keywords other than
    [loop] and [executor].  Once a worker has finished that job, the await
    returns the value that call returns, or raises the exception it
    raises when that is one the future hands on as it is. *)
Theorem to_async_forwards_other_keywords (func : callable) args kw order st ex :
  idle_tasks st ->
  own_loop st (default PNone (dict_lookup "loop" kw)) = true ->
  as_executor (default PNone (dict_lookup "executor" kw)) = Some ex ->
  work (start (to_async func args kw) st).2 =
    (work st ++ [{| job_future := next_future st; job_pool := pool_of ex;
                    job_func := partial func args (forwarded kw) |}])%list /\
  (next_future st ∈ order ->
   (forall v, func args (forwarded kw) = Ok v ->
              (run_until_complete (to_async func args kw) order st).1 = Some (Ok v)) /\
   (forall e, func args (forwarded kw) = Raise e -> passes_through e = true ->
              (run_until_complete (to_async func args kw) order st).1 = Some (Raise e))).
Proof.
  intros Hidle Hloop Hex. unfold run_until_complete, to_async. fold (forwarded kw).
  rewrite (start_run _ _ _ _ _ _ ex Hloop Hex). split; [done|].
  intros Hin.
  assert (Hrun : forall r, future_outcome (func args (forwarded kw)) = Some r ->
            (run_tasks order (WaitFuture (next_future st) Return)
               (submit ex (partial func args (forwarded kw)) st)).1 = Some r).
  { intros r Hr.
    apply (run_tasks_wait_future order (next_future st)
             (submit ex (partial func args (forwarded kw)) st)
             {| job_future := next_future st; job_pool := pool_of ex;
                job_func := partial func args (forwarded kw) |} (work st));
      [by destruct Hidle | by apply submitted_job_found | exact Hr | exact Hin]. }
  split.
  - intros v Hv. apply Hrun. by rewrite Hv.
  - intros e He Hpass. apply Hrun. rewrite He. by apply future_outcome_passes.
Qed.

Lemma to_async_forwards_other_keywords_witness :
  let func : callable := fun args kwargs => Ok (PList (args ++ kwargs.*2)) in
  let kw := [("retries", PInt 3); ("executor", PExecutor _executor); ("loop", PNone)] in
  let st := new_event_loop 0 in
  work (start (to_async func [PStr "abc"] kw) st).2 =
    (work st ++ [{| job_future := 0%nat; job_pool := UserExecutor _executor;
                    job_func := partial func [PStr "abc"] [("retries", PInt 3)] |}])%list /\
  (run_until_complete (to_async func [PStr "abc"] kw) [0%nat] st).1
    = Some (Ok (PList [PStr "abc"; PInt 3])).
Proof.
  intros func kw st.
  destruct (to_async_forwards_other_keywords func [PStr "abc"] kw [0%nat] st
              (Some _executor) (new_event_loop_idle 0) eq_refl eq_refl) as [Hjob Hrun].
  split; [exact Hjob|].
  apply (proj1 (Hrun (list_elem_of_here _ _))). reflexivity.
Defined.

(** X11.  A [loop] keyword that is not a loop, or an [executor] keyword
    that is neither [None] nor an executor, makes the await raise
    [AttributeError] at once: no job is submitted, [func] is not called,
    and the loop is left as it was. *)
Theorem to_async_rejects_bad_keywords func args kw order st :
  let loop := default PNone (dict_lookup "loop" kw) in
  let exv := default PNone (dict_lookup "executor" kw) in
  (loop <> PNone /\ is_loop loop = false) \/ as_executor exv = None ->
  run_until_complete (to_async func args kw) order st = (Some (Raise AttributeError), st).
Proof.
  intros loop exv Hbad. unfold run_until_complete, to_async, run.
  fold loop exv.
  assert (Hdone : forall o s, run_tasks o (Done (Raise AttributeError)) s
                              = (Some (Raise AttributeError), s)) by (by intros []).
  destruct Hbad as [[Hnone Hloop]|Hex].
  - destruct loop; try done; cbn; apply Hdone.
  - destruct loop; cbn; try apply Hdone; destruct exv; try done; cbn; apply Hdone.
Qed.

Lemma to_async_rejects_bad_keywords_witness :
  run_until_complete (to_async api_func_def [] [("executor", PInt 1)]) [0%nat]
    (new_event_loop 0) = (Some (Raise AttributeError), new_event_loop 0) /\
  run_until_complete (to_async api_func_def [] [("loop", PStr "main")]) [0%nat]
    (new_event_loop 0) = (Some (Raise AttributeError), new_event_loop 0).
Proof.
  split.
  - apply (to_async_rejects_bad_keywords api_func_def [] [("executor", PInt 1)]).
    right. reflexivity.
  - apply (to_async_rejects_bad_keywords api_func_def [] [("loop", PStr "main")]).
    left. split; [discriminate | reflexivity].
Defined.

(** X12.  The await does not resolve before a worker has finished the
    job: as long as only other futures complete, the coroutine of the
    wrapper stays suspended, whatever [func] is. *)
Theorem to_async_waits_for_the_worker func args kw order st ex :
  idle_tasks st ->
  own_loop st (default PNone (dict_lookup "loop" kw)) = true ->
  as_executor (default PNone (dict_lookup "executor" kw)) = Some ex ->
  next_future st ∉ order ->
  (run_until_complete (to_async func args kw) order st).1 = None.
Proof.
  intros [Hdet _] Hloop Hex Hnotin. unfold run_until_complete, to_async.
  rewrite (start_run _ _ _ _ _ _ ex Hloop Hex).
  by apply run_tasks_pending.
Qed.

Lemma to_async_waits_for_the_worker_witness :
  let st := (start (call_with (fun _ _ => Ok (PInt 7))) (new_event_loop 0)).2 in
  (idle_tasks st /\ next_future st ∉ [0%nat]) /\
  (run_until_complete (to_async api_func_def [] []) [0%nat] st).1 = None.
Proof.
  intros st.
  assert (Hidle : idle_tasks st).
  { split; [done|]. intros j Hj. apply list_elem_of_singleton in Hj as ->. cbn. lia. }
  assert (Hnotin : next_future st ∉ [0%nat]).
  { intros Hin. apply list_elem_of_singleton in Hin. discriminate. }
  split; [done|].
  exact (to_async_waits_for_the_worker api_func_def [] [] [0%nat] st None
           Hidle eq_refl eq_refl Hnotin).
Defined.

(** X13.  [api_func] takes no argument of its own: called with a
    positional argument, or with a keyword other than [loop] and
    [executor], the call itself still succeeds and a job is submitted; the
    [TypeError] comes out of the await, once the worker has tried the
    call. *)
Theorem api_func_takes_no_argument args kw order st ex :
  idle_tasks st ->
  own_loop st (default PNone (dict_lookup "loop" kw)) = true ->
  as_executor (default PNone (dict_lookup "executor" kw)) = Some ex ->
  args <> [] \/ (exists key, key ∈ kw.*1 /\ reserved key = false) ->
  (exists k, (start (api_func args kw) st).1 = WaitFuture (next_future st) k) /\
  (next_future st ∈ order ->
   (run_until_complete (api_func args kw) order st).1 = Some (Raise TypeError)).
Proof.
  intros Hidle Hloop Hex Hargs. unfold api_func, run_until_complete, to_async.
  fold (forwarded kw). rewrite (start_run _ _ _ _ _ _ ex Hloop Hex).
  split; [by eexists|]. intros Hin.
  eapply run_tasks_wait_future;
    [by destruct Hidle | by apply submitted_job_found | | exact Hin].
  cbn [job_func partial]. unfold api_func_def.
  destruct Hargs as [Hargs|(key & Hkey & Hres)].
  - by destruct args.
  - assert (Hfw : forwarded kw <> []).
    { apply list_elem_of_fmap in Hkey as ([key' v] & -> & Hkv).
      intros Hnil. assert (Hin' : (key', v) ∈ forwarded kw).
      { apply list_elem_of_filter. by split. }
      rewrite Hnil in Hin'. by apply elem_of_nil in Hin'. }
    destruct args; [|done]. by destruct (forwarded kw).
Qed.

Lemma api_func_takes_no_argument_witness :
  (exists k, (start (api_func [PInt 5] []) (new_event_loop 0)).1 = WaitFuture 0 k) /\
  (run_until_complete (api_func [PInt 5] []) [0%nat] (new_event_loop 0)).1
    = Some (Raise TypeError).
Proof.
  destruct (api_func_takes_no_argument [PInt 5] [] [0%nat] (new_event_loop 0) None
              (new_event_loop_idle 0) eq_refl eq_refl) as [Hstart Hrun].
  - left. discriminate.
  - split; [exact Hstart|]. apply Hrun. apply list_elem_of_here.
Defined.

(** ** A failing call under [gather] *)

Lemma all_values_pending filled i :
  filled !! i = Some None -> all_values filled = None.
Proof.
  revert i. induction filled as [|[x|] filled IH]; intros i Hi; [done| |done].
  destruct i as [|i]; [done|]. cbn in Hi. cbn. by rewrite (IH i Hi).
Qed.

Lemma fill_keeps_pending b fut v filled i :
  filled !! i = Some None -> (b + i <> fut)%nat ->
  fill b fut v filled !! i = Some None.
Proof.
  revert b i. induction filled as [|o filled IH]; intros b i Hi Hne; [done|].
  destruct i as [|i]; cbn in Hi.
  - injection Hi as ->. cbn. by rewrite (proj2 (Nat.eqb_neq _ _)) by lia.
  - destruct o as [x|]; cbn; apply IH; try done; lia.
Qed.

(** An exception delivered to the tasks of the calls leaves the loop as
    it is. *)
Lemma deliver_all_slots_raise_state fut e b filled st :
  (deliver_all fut (Raise e) (slot_tasks b filled) st).2 = st.
Proof.
  revert b. induction filled as [|[x|] filled IH]; intros b; cbn; [done| |].
  - specialize (IH (S b)).
    destruct (deliver_all fut (Raise e) (slot_tasks (S b) filled) st); by cbn in *.
  - specialize (IH (S b)).
    destruct (b =? fut)%nat;
      destruct (deliver_all fut (Raise e) (slot_tasks (S b) filled) st); by cbn in *.
Qed.

(** An exception delivered to an unfinished call makes the [gather]
    fail with it. *)
Lemma deliver_all_slots_raise e b filled st i :
  filled !! i = Some None ->
  gather_status (deliver_all (b + i) (Raise e) (slot_tasks b filled) st).1 = Failed e.
Proof.
  revert b i. induction filled as [|o filled IH]; intros b i Hi; [done|].
  destruct i as [|i]; cbn in Hi.
  - injection Hi as ->. cbn. rewrite Nat.add_0_r, Nat.eqb_refl.
    by destruct (deliver_all b (Raise e) (slot_tasks (S b) filled) st).
  - specialize (IH (S b) i Hi). replace (S b + i)%nat with (b + S i)%nat in IH by lia.
    destruct o as [x|]; cbn.
    + destruct (deliver_all (b + S i) (Raise e) (slot_tasks (S b) filled) st) as [ts st1].
      cbn in *. by rewrite IH.
    + rewrite (proj2 (Nat.eqb_neq _ _)) by lia.
      destruct (deliver_all (b + S i) (Raise e) (slot_tasks (S b) filled) st) as [ts st1].
      cbn in *. by rewrite IH.
Qed.

Lemma run_tasks_done order r st : run_tasks order (Done r) st = (Some r, st).
Proof. by destruct order. Qed.

Lemma run_tasks_gather_fails (funcs : list callable) i (f : callable) e post :
  funcs !! i = Some f ->
  f [] [] = Raise e ->
  passes_through e = true ->
  forall pre filled st,
    length filled = length funcs ->
    work st = slot_jobs 0 funcs filled ->
    detached st = [] ->
    filled !! i = Some None ->
    (forall j (g : callable), j ∈ pre -> funcs !! j = Some g -> exists v, g [] [] = Ok v) ->
    exists st',
      run_tasks (pre ++ i :: post) (WaitGather (slot_tasks 0 filled) print_list) st
        = (Some (Raise e), st') /\
      stdout st' = stdout st.
Proof.
  intros Hf Hcall Hpass. induction pre as [|fut pre IH];
    intros filled st Hlen Hwork Hdet Hi Hpre.
  - cbn [app run_tasks]. unfold complete.
    pose proof (take_slot_job_Some 0 i PNone f funcs filled Hf Hi) as Htake.
    change (0 + i)%nat with i in Htake.
    rewrite Hwork, Htake, Hdet. cbn [job_func]. unfold partial at 1.
    rewrite Hcall, (future_outcome_passes e Hpass), deliver_gather.
    match goal with
    | |- context [deliver_all i (Raise e) (slot_tasks 0 filled) ?s] =>
        pose proof (deliver_all_slots_raise e 0 filled s i Hi) as Hstatus;
        pose proof (deliver_all_slots_raise_state i e 0 filled s) as Hstate;
        change (0 + i)%nat with i in Hstatus;
        destruct (deliver_all i (Raise e) (slot_tasks 0 filled) s) as [ts s1]
    end.
    cbn [fst snd] in Hstatus, Hstate. rewrite Hstatus. subst s1.
    cbn. rewrite run_tasks_done. by eexists.
  - cbn [app run_tasks]. unfold complete.
    assert (Hrest : forall j (g : callable), j ∈ pre -> funcs !! j = Some g ->
                                             exists v, g [] [] = Ok v).
    { intros j g Hj. apply Hpre. by apply list_elem_of_further. }
    destruct (filled !! fut) as [[x|]|] eqn:Hfut.
    + destruct (take_slot_job_None 0 fut PNone funcs filled) as [Hnone _].
      { intros j Hj. simpl. intros ->. congruence. }
      rewrite Hwork, Hnone. by apply IH.
    + assert (is_Some (funcs !! fut)) as [g Hg].
      { apply lookup_lt_is_Some. rewrite <- Hlen. by apply lookup_lt_Some in Hfut. }
      destruct (Hpre fut g (list_elem_of_here _ _) Hg) as [v Hv].
      assert (Hne : fut <> i).
      { intros Heq. rewrite Heq, Hf in Hg. injection Hg as <-.
        rewrite Hcall in Hv. discriminate. }
      pose proof (take_slot_job_Some 0 fut v g funcs filled Hg Hfut) as Htake.
      change (0 + fut)%nat with fut in Htake.
      rewrite Hwork, Htake, Hdet.
      cbn [job_func]. unfold partial at 1. rewrite Hv. cbn [future_outcome].
      rewrite deliver_gather, deliver_all_slots, gather_status_slots.
      assert (Hi' : fill 0 fut v filled !! i = Some None)
        by (apply fill_keeps_pending; [done | simpl; congruence]).
      rewrite (all_values_pending _ i Hi'). cbn.
      match goal with
      | |- context [run_tasks (pre ++ i :: post) _ ?s] =>
          destruct (IH (fill 0 fut v filled) s) as (st' & Hrun & Hout)
      end; try done.
      * by rewrite fill_length.
      * by exists st'.
    + destruct (take_slot_job_None 0 fut PNone funcs filled) as [Hnone _].
      { intros j Hj. simpl. intros ->. congruence. }
      rewrite Hwork, Hnone. by apply IH.
Qed.

(** X14.  [gather] without [return_exceptions] hands on the first failure:
    when the calls that the workers finish first all return and the next
    one finished raises an exception that the future passes on as it is
    (its class is not [StopIteration] nor derived from it, nor one of the
    three classes of [concurrent.futures] that [asyncio] replaces), [main]
    raises that exception as soon as that call is over, without waiting
    for the others, and prints nothing. *)
Theorem gather_raises_first_failure (funcs : list callable) id pre i post (f : callable) e :
  funcs !! i = Some f ->
  f [] [] = Raise e ->
  passes_through e = true ->
  (forall j (g : callable), j ∈ pre -> funcs !! j = Some g -> exists v, g [] [] = Ok v) ->
  exists st',
    run_until_complete (main_with funcs) (pre ++ i :: post) (new_event_loop id)
      = (Some (Raise e), st') /\
    stdout st' = [].
Proof.
  intros Hf Hcall Hpass Hpre. unfold run_until_complete, main_with.
  rewrite start_gather, start_all_calls, gather_status_slots.
  assert (Hi : replicate (length funcs) (@None pyval) !! i = Some None).
  { apply lookup_replicate. split; [done|]. by apply lookup_lt_Some in Hf. }
  rewrite (all_values_pending _ i Hi).
  edestruct (run_tasks_gather_fails funcs i f e post Hf Hcall Hpass pre
               (replicate (length funcs) None)) as (st' & Hrun & Hout);
    [| | |exact Hi|exact Hpre|exists st'; split; [exact Hrun | exact Hout]].
  - by rewrite length_replicate.
  - reflexivity.
  - reflexivity.
Qed.

Lemma gather_raises_first_failure_witness :
  exists st',
    run_until_complete
      (main_with [fun _ _ => Ok (PInt 10); fun _ _ => Raise ValueError;
                  fun _ _ => Ok (PInt 30); fun _ _ => Raise (KeyError "id")])
      ([2] ++ 1 :: [3; 0])%nat (new_event_loop 0) = (Some (Raise ValueError), st') /\
    stdout st' = [].
Proof.
  apply (gather_raises_first_failure _ 0 [2%nat] 1 [3; 0]%nat (fun _ _ => Raise ValueError)).
  - reflexivity.
  - reflexivity.
  - reflexivity.
  - intros j g ->%list_elem_of_singleton [= <-]. by eexists.
Defined.

(** ** What the bucket loop reads *)

Lemma for_each_ext {A} (xs : list A) (body body' : A -> cell unit) k :
  (forall x k1, x ∈ xs -> body x k1 = body' x k1) ->
  for_each xs body k = for_each xs body' k.
Proof.
  revert k. induction xs as [|x xs IH]; intros k Hext; [done|].
  cbn [for_each]. unfold mbind, cell_bind.
  rewrite (Hext x k (list_elem_of_here _ _)).
  destruct (body' x k) as [[[]|e] k1]; [|done].
  apply IH. intros y k2 Hy. apply Hext. by apply list_elem_of_further.
Qed.

(** X15.  The loop downloads the objects whose key contains
    [video_data.json] and no other: two buckets that list the same keys
    and agree on the bodies of those objects give the same outcome of
    cell 2 and leave the same kernel, whatever their other objects hold
    and whatever the database does. *)
Theorem cell_2_reads_only_video_data w w' k0 :
  objects_all w = objects_all w' ->
  (forall body, json_load w body = json_load w' body) ->
  (forall key, key ∈ (objects_all w).1 -> contains "video_data.json" key = true ->
               download_file w key = download_file w' key) ->
  cell_2 w k0 = cell_2 w' k0.
Proof.
  intros Hlist Hjson Hbody. unfold cell_2. rewrite <- Hlist.
  unfold mbind, cell_bind, assign_all_data.
  rewrite (for_each_ext _ (loop_body w) (loop_body w')); [done|].
  intros key k1 Hkey. unfold loop_body.
  destruct (contains "video_data.json" key) eqn:Hvid; [|done].
  rewrite (Hbody key Hkey Hvid).
  unfold mbind, cell_bind, lift, write_file, open_read, store_all_data; simpl.
  destruct (download_file w' key) as [body|e]; [|done].
  by rewrite lookup_insert_eq, Hjson.
Qed.

Lemma cell_2_reads_only_video_data_witness :
  let w' := {| objects_all := objects_all example_world;
               download_file := fun key =>
                 if contains "video_data.json" key then Ok key
                 else Raise (OtherError "ClientError");
               json_load := json_load example_world;
               connect := Some (OtherError "OperationalError");
               execute := fun _ => Raise (OtherError "ProgrammingError") |} in
  cell_2 example_world empty_kernel = cell_2 w' empty_kernel.
Proof.
  intros w'.
  apply (cell_2_reads_only_video_data example_world w' empty_kernel).
  - reflexivity.
  - reflexivity.
  - intros key _ Hvid. cbn [download_file example_world w']. by rewrite Hvid.
Defined.

(** ** The statistics of cell 9 *)

















